(** * SimpleVector: a shallow embedding of [simple_vector.h]

    The container is a class template over an element type [Type] that owns
    one [ArrayPtr<Type>] buffer and two [size_t] counters.  The embedding
    keeps that shape:

    - [size_t] is an [N] below [2^64]; every [size_t] operation of the source
      ([size_ + 1], [capacity_ * 2], [++size_], [--size_]) is written with its
      wrap-around.  Pointer arithmetic ([Get() + size_ + 1]) is not modular and
      is written with plain [N] addition.
    - a raw buffer is the list of its slots; a pointer into the buffer of a
      vector is its offset from [Get()].  Reading or writing a slot that does
      not exist is undefined behaviour and is reported as such, it is never
      silently ignored.
    - a member function is a computation over the object it is called on
      ([this]), with three ways to end: normally, with a failure
      (the [std::out_of_range] exception, a failed allocation, a failed
      [assert]), or in undefined behaviour.
    - moving an element is modelled as copying it (the moved-from slot keeps
      its value, as it does for trivially copyable element types). *)

From Stdlib Require Import NArith ZArith Lia.
From stdpp Require Import base option list.

Local Open Scope N_scope.

(** ** [size_t] arithmetic

    [size_t] has 64 bits, as on the LP64 and LLP64 platforms. *)

Definition SIZE_WIDTH : N := 64.

Definition size_wrap (x : N) : N := x mod 2 ^ SIZE_WIDTH.
Definition size_add (a b : N) : N := size_wrap (a + b).
Definition size_mul (a b : N) : N := size_wrap (a * b).
(** [--x]: [0] wraps to [2^64 - 1]. *)
Definition size_dec (a : N) : N := size_wrap (a + (2 ^ SIZE_WIDTH - 1)).

(** ** Outcomes and the computation monad

    The three failures follow the three tiers of the error policy: the one
    exception the class throws, exhausted storage, and a violated
    precondition that an [assert] caught.  A failure carries the state the
    object was in when the call was left. *)

Inductive Error : Set :=
| OutOfRange        (* throw std::out_of_range("Out of range") *)
| AllocFailure      (* new[] could not obtain the storage *)
| AssertionFailed.  (* assert(...) in a build without NDEBUG *)

Inductive Outcome (St A : Type) : Type :=
| Ok (a : A) (s : St)
| Fail (e : Error) (s : St)
| UB.
Arguments Ok {St A} a s.
Arguments Fail {St A} e s.
Arguments UB {St A}.

Definition M (St A : Type) : Type := St -> Outcome St A.

Definition ret {St A} (a : A) : M St A := fun s => Ok a s.

Definition bind {St A B} (m : M St A) (f : A -> M St B) : M St B :=
  fun s => match m s with
           | Ok a s' => f a s'
           | Fail e s' => Fail e s'
           | UB => UB
           end.

Notation "x <- c ;; k" := (bind c (fun x => k))
  (at level 20, c at level 99, k at level 200, only parsing).
Notation "c ;; k" := (bind c (fun _ => k))
  (at level 100, k at level 200, right associativity, only parsing).

Definition get {St} : M St St := fun s => Ok s s.
Definition put {St} (s : St) : M St unit := fun _ => Ok tt s.
Definition throw {St A} (e : Error) : M St A := fun s => Fail e s.
Definition undefined {St A} : M St A := fun _ => UB.

(** A partial buffer operation: [None] is an access outside the buffer. *)
Definition lift_ub {St A} (o : option A) : M St A :=
  match o with Some a => ret a | None => undefined end.

(** A computation that cannot end in the failure [e], whatever its state. *)
Definition never_fails_with {St A} (e : Error) (m : M St A) : Prop :=
  forall s s', m s <> Fail e s'.

(** ** What the class template is instantiated and built with

    [default_value] is the value-initialised object [Type()] and [Type_eq]
    the [operator==] of the template parameter [Type].  [NDEBUG] is [true]
    when the translation unit is compiled with [NDEBUG], so that [assert]
    expands to nothing.  [fresh_value] is what a slot holds right after
    [new Type[n]], and [max_alloc] the largest [n] for which that allocation
    succeeds: no object can span half the address space, which is what keeps
    the [size_t] arithmetic of a vector whose buffer was really allocated
    free of wrap-around. *)

Class Platform (T : Type) : Type := {
  default_value : T;
  Type_eq : T -> T -> bool;
  NDEBUG : bool;
  fresh_value : T;
  max_alloc : N;
  max_alloc_bound : max_alloc < 2 ^ 63
}.

(** Modelled from the spec: the class template [ArrayPtr] of [array_ptr.h],
    which the source includes and which is not part of it.  Spec 3: a buffer
    owner holds a contiguous block of [capacity] elements and has no notion
    of a logical length.  Here: the slots of the owned block, in order. *)
Abbreviation ArrayPtr T := (list T) (only parsing).

Section SimpleVector.

Context {T : Type} {P : Platform T}.

Definition assert_ {St} (cond : bool) : M St unit :=
  if NDEBUG || cond then ret tt else throw AssertionFailed.

(** ** The buffer owner *)

(** Modelled from the spec: the constructor [ArrayPtr(size_t)] of
    [array_ptr.h].  Spec 4.1: Construct(capacity) allocates storage for
    exactly [capacity] elements, capacity 0 is valid and allocates nothing;
    a failed allocation is not a recoverable error. *)
Definition ArrayPtr_new {St} (size : N) : M St (ArrayPtr T) :=
  if size <=? max_alloc
  then ret (replicate (N.to_nat size) fresh_value)
  else throw AllocFailure.

(** Modelled from the spec: [ArrayPtr::operator[]] of [array_ptr.h], read.
    Spec 4.1: indexed access returns slot [i]; out of bounds is undefined
    behaviour, not a reported error. *)
Definition ArrayPtr_at (a : ArrayPtr T) (i : N) : option T :=
  a !! N.to_nat i.

(** Modelled from the spec: [ArrayPtr::operator[]] of [array_ptr.h],
    assigned through, [a[i] = x].  Spec 4.1 as for [ArrayPtr_at]. *)
Definition ArrayPtr_store (a : ArrayPtr T) (i : N) (x : T)
  : option (ArrayPtr T) :=
  match a !! N.to_nat i with
  | Some _ => Some (<[N.to_nat i := x]> a)
  | None => None
  end.

(** ** The algorithms of <algorithm> the source calls

    Pointers are offsets into the buffer they point to.  A range whose
    [first] lies behind its [last] makes the loop run off the buffer. *)

(** [std::fill(first, last, value)], and the loop of the private [Fill]. *)
Fixpoint fill_loop (n : nat) (buf : ArrayPtr T) (first : nat) (value : T)
  : option (ArrayPtr T) :=
  match n with
  | O => Some buf
  | S n' =>
      match buf !! first with
      | Some _ => fill_loop n' (<[first := value]> buf) (S first) value
      | None => None
      end
  end.

Definition std_fill (buf : ArrayPtr T) (first last : N) (value : T)
  : option (ArrayPtr T) :=
  if first <=? last
  then fill_loop (N.to_nat (last - first)) buf (N.to_nat first) value
  else None.

(** [std::copy(first, last, d_first)] and [std::move(first, last, d_first)]
    from one buffer into another one. *)
Fixpoint copy_loop (n : nat) (src : ArrayPtr T) (first : nat)
         (dst : ArrayPtr T) (d_first : nat) : option (ArrayPtr T) :=
  match n with
  | O => Some dst
  | S n' =>
      match src !! first, dst !! d_first with
      | Some x, Some _ =>
          copy_loop n' src (S first) (<[d_first := x]> dst) (S d_first)
      | _, _ => None
      end
  end.

Definition std_copy (src : ArrayPtr T) (first last : N)
           (dst : ArrayPtr T) (d_first : N) : option (ArrayPtr T) :=
  if first <=? last
  then copy_loop (N.to_nat (last - first)) src (N.to_nat first)
                 dst (N.to_nat d_first)
  else None.

(** [std::move(first, last, d_first)] with source and destination in the
    same buffer: every write is seen by the reads that follow. *)
Fixpoint move_within_loop (n : nat) (buf : ArrayPtr T) (first d_first : nat)
  : option (ArrayPtr T) :=
  match n with
  | O => Some buf
  | S n' =>
      match buf !! first, buf !! d_first with
      | Some x, Some _ =>
          move_within_loop n' (<[d_first := x]> buf) (S first) (S d_first)
      | _, _ => None
      end
  end.

Definition std_move_within (buf : ArrayPtr T) (first last d_first : N)
  : option (ArrayPtr T) :=
  if first <=? last
  then move_within_loop (N.to_nat (last - first)) buf
                        (N.to_nat first) (N.to_nat d_first)
  else None.

(** [std::copy_backward(first, last, d_last)] and [std::move_backward]:
    [*(--d_last) = *(--last)] until [first == last]. *)
Fixpoint copy_backward_loop (n : nat) (src : ArrayPtr T) (last : nat)
         (dst : ArrayPtr T) (d_last : nat) : option (ArrayPtr T) :=
  match n, last, d_last with
  | O, _, _ => Some dst
  | S n', S last', S d_last' =>
      match src !! last', dst !! d_last' with
      | Some x, Some _ =>
          copy_backward_loop n' src last' (<[d_last' := x]> dst) d_last'
      | _, _ => None
      end
  | S _, _, _ => None
  end.

Definition std_copy_backward (src : ArrayPtr T) (first last : N)
           (dst : ArrayPtr T) (d_last : N) : option (ArrayPtr T) :=
  if first <=? last
  then copy_backward_loop (N.to_nat (last - first)) src (N.to_nat last)
                          dst (N.to_nat d_last)
  else None.

(** The same, source and destination in one buffer. *)
Fixpoint copy_backward_within_loop (n : nat) (buf : ArrayPtr T)
         (last d_last : nat) : option (ArrayPtr T) :=
  match n, last, d_last with
  | O, _, _ => Some buf
  | S n', S last', S d_last' =>
      match buf !! last', buf !! d_last' with
      | Some x, Some _ =>
          copy_backward_within_loop n' (<[d_last' := x]> buf) last' d_last'
      | _, _ => None
      end
  | S _, _, _ => None
  end.

Definition std_copy_backward_within (buf : ArrayPtr T) (first last d_last : N)
  : option (ArrayPtr T) :=
  if first <=? last
  then copy_backward_within_loop (N.to_nat (last - first)) buf
                                 (N.to_nat last) (N.to_nat d_last)
  else None.

(** [std::equal(first1, last1, first2)]: the second range has no end. *)
Fixpoint equal_loop (n : nat) (a : ArrayPtr T) (first1 : nat)
         (b : ArrayPtr T) (first2 : nat) : option bool :=
  match n with
  | O => Some true
  | S n' =>
      match a !! first1, b !! first2 with
      | Some x, Some y =>
          if Type_eq x y then equal_loop n' a (S first1) b (S first2)
          else Some false
      | _, _ => None
      end
  end.

Definition std_equal (a : ArrayPtr T) (first1 last1 : N)
           (b : ArrayPtr T) (first2 : N) : option bool :=
  if first1 <=? last1
  then equal_loop (N.to_nat (last1 - first1)) a (N.to_nat first1)
                  b (N.to_nat first2)
  else None.

(** ** The class *)

Record SimpleVector : Type := mkSimpleVector {
  simple_vector_ : ArrayPtr T;
  size_ : N;
  capacity_ : N
}.

(** [simple_vector_.swap(temp)] with a [temp] that goes out of scope right
    after, and a write through a pointer into [simple_vector_]. *)
Definition set_buffer (buf : ArrayPtr T) : M SimpleVector unit :=
  fun this => Ok tt (mkSimpleVector buf (size_ this) (capacity_ this)).
Definition set_size (n : N) : M SimpleVector unit :=
  fun this => Ok tt (mkSimpleVector (simple_vector_ this) n (capacity_ this)).
Definition set_capacity (n : N) : M SimpleVector unit :=
  fun this => Ok tt (mkSimpleVector (simple_vector_ this) (size_ this) n).

(** The members as their default initialisers leave them:
    an [ArrayPtr] that owns nothing, [size_ = 0], [capacity_ = 0]. *)
Definition blank : SimpleVector := mkSimpleVector [] 0 0.

(** A constructor runs on the blank object. *)
Definition construct (ctor : M SimpleVector unit) : Outcome SimpleVector unit :=
  ctor blank.

(** [SimpleVector() noexcept = default] *)
Definition ctor_default : M SimpleVector unit := ret tt.

(** [SimpleVector(size_t size, const Type& value)] *)
Definition ctor_fill (size : N) (value : T) : M SimpleVector unit :=
  buf <- ArrayPtr_new size ;;
  put (mkSimpleVector buf size size) ;;
  buf <- lift_ub (std_fill buf 0 (0 + size) value) ;;
  set_buffer buf.

(** [explicit SimpleVector(size_t size)] *)
Definition ctor_sized (size : N) : M SimpleVector unit :=
  ctor_fill size default_value.

(** [SimpleVector(std::initializer_list<Type> init)] *)
Definition ctor_list (init : list T) : M SimpleVector unit :=
  let n := N.of_nat (length init) in
  buf <- ArrayPtr_new n ;;
  put (mkSimpleVector buf n n) ;;
  buf <- lift_ub (std_copy init 0 n buf 0) ;;
  set_buffer buf.

(** [SimpleVector(const SimpleVector& other)]: the initialiser list names
    [simple_vector_] and [size_] only, [capacity_] keeps its default. *)
Definition ctor_copy (other : SimpleVector) : M SimpleVector unit :=
  buf <- ArrayPtr_new (capacity_ other) ;;
  put (mkSimpleVector buf (size_ other) 0) ;;
  buf <- lift_ub (std_copy (simple_vector_ other) 0 (0 + size_ other)
                           buf 0) ;;
  set_buffer buf.

(** [void swap(SimpleVector& other) noexcept] *)
Definition swap (this other : SimpleVector) : SimpleVector * SimpleVector :=
  (mkSimpleVector (simple_vector_ other) (size_ other) (capacity_ other),
   mkSimpleVector (simple_vector_ this) (size_ this) (capacity_ this)).

(** [SimpleVector(SimpleVector&& other) noexcept]: the state that is
    threaded is [other]; the value is the object that was constructed. *)
Definition ctor_move : M SimpleVector SimpleVector :=
  other <- get ;;
  buf <- ArrayPtr_new (capacity_ other) ;;
  let this := mkSimpleVector buf 0 0 in
  let '(this', other') := swap this other in
  put other' ;;
  ret this'.

(** [operator[]] *)
Definition operator_index (index : N) : M SimpleVector T :=
  this <- get ;;
  assert_ (index <? size_ this) ;;
  lift_ub (ArrayPtr_at (simple_vector_ this) index).

(** [At], in its two overloads of one body. *)
Definition At (index : N) : M SimpleVector T :=
  this <- get ;;
  if size_ this <=? index
  then throw OutOfRange
  else lift_ub (ArrayPtr_at (simple_vector_ this) index).

Definition GetSize : M SimpleVector N := this <- get ;; ret (size_ this).
Definition GetCapacity : M SimpleVector N :=
  this <- get ;; ret (capacity_ this).
Definition IsEmpty : M SimpleVector bool :=
  this <- get ;; ret (size_ this =? 0).

Definition Clear : M SimpleVector unit := set_size 0.

(** The private [Fill(first, last)], on the buffer the pointers point to. *)
Definition Fill {St} (buf : ArrayPtr T) (first last : N) : M St (ArrayPtr T) :=
  assert_ (first <? last) ;;
  lift_ub (std_fill buf first last default_value).

(** [Resize]: three [if] statements in a row, not a chain. *)
Definition Resize (new_size : N) : M SimpleVector unit :=
  (this <- get ;;
   if new_size <=? size_ this then set_size new_size else ret tt) ;;
  (this <- get ;;
   if new_size <=? capacity_ this then
     buf <- Fill (simple_vector_ this) (size_ this) (size_ this + new_size) ;;
     set_buffer buf
   else ret tt) ;;
  (this <- get ;;
   if capacity_ this <? new_size then
     let new_capacity := N.max new_size (size_mul (capacity_ this) 2) in
     temp <- ArrayPtr_new new_capacity ;;
     temp <- Fill temp 0 (0 + new_capacity) ;;
     temp <- lift_ub (std_copy (simple_vector_ this) 0 (0 + capacity_ this)
                               temp 0) ;;
     set_buffer temp ;;
     set_size new_size ;;
     set_capacity new_capacity
   else ret tt).

(** [PushBack(const Type& item)] *)
Definition PushBack (item : T) : M SimpleVector unit :=
  (this <- get ;;
   if capacity_ this <? size_add (size_ this) 1 then
     let new_capacity :=
       N.max (size_add (size_ this) 1) (size_mul (capacity_ this) 2) in
     temp <- ArrayPtr_new new_capacity ;;
     temp <- lift_ub (std_fill temp 0 (0 + new_capacity) default_value) ;;
     temp <- lift_ub (std_copy (simple_vector_ this) 0 (0 + size_ this)
                               temp 0) ;;
     set_buffer temp ;;
     set_capacity new_capacity
   else ret tt) ;;
  this <- get ;;
  buf <- lift_ub (ArrayPtr_store (simple_vector_ this) (size_ this) item) ;;
  set_buffer buf ;;
  set_size (size_add (size_ this) 1).

(** [PushBack(Type&& item)]: the new buffer is not filled first. *)
Definition PushBack_move (item : T) : M SimpleVector unit :=
  (this <- get ;;
   if capacity_ this <? size_add (size_ this) 1 then
     let new_capacity :=
       N.max (size_add (size_ this) 1) (size_mul (capacity_ this) 2) in
     temp <- ArrayPtr_new new_capacity ;;
     temp <- lift_ub (std_copy (simple_vector_ this) 0 (0 + size_ this)
                               temp 0) ;;
     set_buffer temp ;;
     set_capacity new_capacity
   else ret tt) ;;
  this <- get ;;
  buf <- lift_ub (ArrayPtr_store (simple_vector_ this) (size_ this) item) ;;
  set_buffer buf ;;
  set_size (size_add (size_ this) 1).

(** [Insert(ConstIterator pos, const Type& value)] and
    [Insert(Iterator pos, Type&& value)]: the two bodies differ in
    [copy]/[move] only, which the model does not tell apart.  The result
    is [&simple_vector_[count]]. *)
Definition Insert (pos : N) (value : T) : M SimpleVector N :=
  this <- get ;;
  assert_ ((0 <=? pos) && (pos <=? 0 + size_ this)) ;;
  let count := pos - 0 in
  (if capacity_ this =? 0 then
     temp <- ArrayPtr_new 1 ;;
     temp <- lift_ub (ArrayPtr_store temp count value) ;;
     set_buffer temp ;;
     set_capacity (size_add (capacity_ this) 1)
   else if size_ this <? capacity_ this then
     buf <- lift_ub (std_copy_backward_within (simple_vector_ this)
                       (0 + count) (0 + size_ this) (0 + size_ this + 1)) ;;
     buf <- lift_ub (ArrayPtr_store buf count value) ;;
     set_buffer buf
   else
     let new_capacity :=
       N.max (size_add (size_ this) 1) (size_mul (capacity_ this) 2) in
     temp <- ArrayPtr_new (capacity_ this) ;;
     temp <- lift_ub (std_copy (simple_vector_ this) 0 (0 + size_ this)
                               temp 0) ;;
     temp <- lift_ub (std_copy_backward (simple_vector_ this)
                        (0 + count) (0 + size_ this)
                        temp (0 + size_ this + 1)) ;;
     temp <- lift_ub (ArrayPtr_store temp count value) ;;
     set_buffer temp ;;
     set_capacity new_capacity) ;;
  this <- get ;;
  set_size (size_add (size_ this) 1) ;;
  ret count.

(** [PopBack] *)
Definition PopBack : M SimpleVector unit :=
  this <- get ;;
  assert_ (negb (size_ this =? 0)) ;;
  set_size (size_dec (size_ this)).

(** [Erase(ConstIterator pos)] *)
Definition Erase (pos : N) : M SimpleVector N :=
  this <- get ;;
  assert_ (negb (pos =? 0 + size_ this)) ;;
  let count := pos - 0 in
  buf <- lift_ub (std_move_within (simple_vector_ this)
                    (0 + count + 1) (0 + size_ this) (0 + count)) ;;
  set_buffer buf ;;
  set_size (size_dec (size_ this)) ;;
  ret count.

(** [Reserve(size_t new_capacity)] *)
Definition Reserve (new_capacity : N) : M SimpleVector unit :=
  this <- get ;;
  if capacity_ this <? new_capacity then
    temp <- ArrayPtr_new new_capacity ;;
    temp <- lift_ub (std_fill temp 0 (0 + new_capacity) default_value) ;;
    temp <- lift_ub (std_copy (simple_vector_ this) 0 (0 + size_ this)
                              temp 0) ;;
    set_buffer temp ;;
    set_capacity new_capacity
  else ret tt.

(** [explicit SimpleVector(const ReserveFunc obj)] *)
Definition ctor_reserve (capacity_to_reserve : N) : M SimpleVector unit :=
  Reserve capacity_to_reserve.

(** [operator==] and [operator!=] *)
Definition operator_eq (lhs rhs : SimpleVector) : option bool :=
  std_equal (simple_vector_ lhs) 0 (0 + size_ lhs) (simple_vector_ rhs) 0.

Definition operator_ne (lhs rhs : SimpleVector) : option bool :=
  negb <$> operator_eq lhs rhs.

(** [begin], [end] and their const twins: offsets from [Get()]. *)
Definition begin_ : M SimpleVector N := ret 0.
Definition end_ : M SimpleVector N := this <- get ;; ret (0 + size_ this).

(** ** Objects at addresses

    [operator=] compares the address of its receiver with the address of
    its argument, so it is modelled over a store of vector objects; a
    reference is the index of the object it refers to, and an access
    through a reference to no object is undefined. *)

Definition Store : Type := list SimpleVector.

(** A local object of a member function: constructing it touches no
    object of the store. *)
Definition local_object (ctor : M SimpleVector unit) : M Store SimpleVector :=
  fun objects =>
    match construct ctor with
    | Ok _ obj => Ok obj objects
    | Fail e _ => Fail e objects
    | UB => UB
    end.

(** [SimpleVector& operator=(const SimpleVector& rhs)]; [helper] is
    destroyed when its block ends. *)
Definition operator_assign (this rhs : nat) : M Store unit :=
  if negb (Nat.eqb this rhs) then
    objects <- get ;;
    rhs_obj <- lift_ub (objects !! rhs) ;;
    helper <- local_object (ctor_copy rhs_obj) ;;
    this_obj <- lift_ub (objects !! this) ;;
    let '(this_obj', _) := swap this_obj helper in
    put (<[this := this_obj']> objects)
  else ret tt.

(** ** The interface as a whole *)

Inductive Value : Type :=
| VVoid
| VElement (x : T)
| VSize (n : N)
| VBool (b : bool)
| VIterator (pos : N).

Inductive MemberCall : Type :=
| CallIndex (index : N)
| CallAt (index : N)
| CallBegin
| CallEnd
| CallGetSize
| CallGetCapacity
| CallIsEmpty
| CallClear
| CallResize (new_size : N)
| CallPushBack (item : T)
| CallPushBackMove (item : T)
| CallInsert (pos : N) (value : T)
| CallPopBack
| CallErase (pos : N)
| CallReserve (new_capacity : N).

Definition invoke (c : MemberCall) : M SimpleVector Value :=
  match c with
  | CallIndex index => x <- operator_index index ;; ret (VElement x)
  | CallAt index => x <- At index ;; ret (VElement x)
  | CallBegin => it <- begin_ ;; ret (VIterator it)
  | CallEnd => it <- end_ ;; ret (VIterator it)
  | CallGetSize => n <- GetSize ;; ret (VSize n)
  | CallGetCapacity => n <- GetCapacity ;; ret (VSize n)
  | CallIsEmpty => b <- IsEmpty ;; ret (VBool b)
  | CallClear => Clear ;; ret VVoid
  | CallResize new_size => Resize new_size ;; ret VVoid
  | CallPushBack item => PushBack item ;; ret VVoid
  | CallPushBackMove item => PushBack_move item ;; ret VVoid
  | CallInsert pos value => it <- Insert pos value ;; ret (VIterator it)
  | CallPopBack => PopBack ;; ret VVoid
  | CallErase pos => it <- Erase pos ;; ret (VIterator it)
  | CallReserve new_capacity => Reserve new_capacity ;; ret VVoid
  end.

Inductive CtorCall : Type :=
| NewDefault
| NewSized (size : N)
| NewFill (size : N) (value : T)
| NewList (init : list T)
| NewCopy (other : SimpleVector)
| NewReserve (capacity_to_reserve : N).

Definition ctor_of (c : CtorCall) : M SimpleVector unit :=
  match c with
  | NewDefault => ctor_default
  | NewSized size => ctor_sized size
  | NewFill size value => ctor_fill size value
  | NewList init => ctor_list init
  | NewCopy other => ctor_copy other
  | NewReserve capacity_to_reserve => ctor_reserve capacity_to_reserve
  end.

(** ** The representation the spec asks for

    [backed]: the live elements and the reported capacity fit the buffer,
    and the buffer is one that [new] can have returned.  [length_le_capacity]
    is invariant 1 of the data model. *)

Record backed (v : SimpleVector) : Prop := mkBacked {
  backed_size : size_ v <= N.of_nat (length (simple_vector_ v));
  backed_capacity : capacity_ v <= N.of_nat (length (simple_vector_ v));
  backed_alloc : N.of_nat (length (simple_vector_ v)) <= max_alloc
}.

Definition length_le_capacity (v : SimpleVector) : Prop :=
  size_ v <= capacity_ v.

(** The live elements, [begin, end). *)
Definition contents (v : SimpleVector) : list T :=
  take (N.to_nat (size_ v)) (simple_vector_ v).

End SimpleVector.

Arguments SimpleVector T : clear implicits.
Arguments Store T : clear implicits.

(** ** Concrete instances: [SimpleVector<int>]

    [debug_build] and [release_build] differ in [NDEBUG]; [small_heap] can
    allocate two elements at most. *)


Module IntVector.

Definition debug_build : Platform Z :=
  {| default_value := 0%Z; Type_eq := Z.eqb; NDEBUG := false;
     fresh_value := (-1)%Z; max_alloc := 2 ^ 62;
     max_alloc_bound := eq_refl |}.

Definition release_build : Platform Z :=
  {| default_value := 0%Z; Type_eq := Z.eqb; NDEBUG := true;
     fresh_value := (-1)%Z; max_alloc := 2 ^ 62;
     max_alloc_bound := eq_refl |}.

Definition small_heap : Platform Z :=
  {| default_value := 0%Z; Type_eq := Z.eqb; NDEBUG := false;
     fresh_value := (-1)%Z; max_alloc := 2;
     max_alloc_bound := eq_refl |}.

(** [SimpleVector<int>{1, 2, 3}] *)
Definition v123 : SimpleVector Z := mkSimpleVector [1; 2; 3]%Z 3 3.

(** [SimpleVector<int>{1, 2}] *)
Definition v12 : SimpleVector Z := mkSimpleVector [1; 2]%Z 2 2.

(** [SimpleVector<int>{1, 2, 3, 4}] *)
Definition v1234 : SimpleVector Z := mkSimpleVector [1; 2; 3; 4]%Z 4 4.

(** [SimpleVector<int>(Reserve(10))] *)
Definition reserved10 : SimpleVector Z :=
  mkSimpleVector (replicate 10 0%Z) 0 10.

(** Three [PushBack]s on an empty vector: capacities 1, 2, 4. *)
Definition pushed123 : SimpleVector Z := mkSimpleVector [1; 2; 3; 0]%Z 3 4.

End IntVector.

(** ** The rest of the header: ordering, and calls in a row *)

Section Ordering.

Context {T : Type}.

(** [operator<] of the template parameter [Type]. *)
Variable Type_lt : T -> T -> bool.

(** [std::lexicographical_compare(first1, last1, first2, last2)]: the loop
    runs while both ranges have elements; after it, the result is
    [(first1 == last1) && (first2 != last2)]. *)
Fixpoint lexicographical_compare_loop (n1 n2 : nat)
         (a : ArrayPtr T) (first1 : nat) (b : ArrayPtr T) (first2 : nat)
  : option bool :=
  match n1, n2 with
  | S n1', S n2' =>
      match a !! first1, b !! first2 with
      | Some x, Some y =>
          if Type_lt x y then Some true
          else if Type_lt y x then Some false
          else lexicographical_compare_loop n1' n2' a (S first1) b (S first2)
      | _, _ => None
      end
  | O, S _ => Some true
  | _, O => Some false
  end.

Definition std_lexicographical_compare
           (a : ArrayPtr T) (first1 last1 : N)
           (b : ArrayPtr T) (first2 last2 : N) : option bool :=
  if (first1 <=? last1) && (first2 <=? last2)
  then lexicographical_compare_loop
         (N.to_nat (last1 - first1)) (N.to_nat (last2 - first2))
         a (N.to_nat first1) b (N.to_nat first2)
  else None.

(** [operator<], [operator<=], [operator>] and [operator>=] *)
Definition operator_lt (lhs rhs : SimpleVector T) : option bool :=
  std_lexicographical_compare (simple_vector_ lhs) 0 (0 + size_ lhs)
                              (simple_vector_ rhs) 0 (0 + size_ rhs).

Definition operator_le (lhs rhs : SimpleVector T) : option bool :=
  negb <$> operator_lt rhs lhs.

Definition operator_gt (lhs rhs : SimpleVector T) : option bool :=
  operator_lt rhs lhs.

Definition operator_ge (lhs rhs : SimpleVector T) : option bool :=
  negb <$> operator_lt lhs rhs.

(** The lexicographic order on lists, by the element order: what
    [operator<] is to compute on the live elements. *)
Fixpoint lexicographic_lt (xs ys : list T) : bool :=
  match xs, ys with
  | [], [] => false
  | [], _ :: _ => true
  | _ :: _, [] => false
  | x :: xs', y :: ys' =>
      if Type_lt x y then true
      else if Type_lt y x then false
      else lexicographic_lt xs' ys'
  end.

End Ordering.

Section Sequences.

Context {T : Type} {P : Platform T}.

(** [ReserveFunc] and the free function [Reserve(capacity_to_reserve)]:
    a wrapper around one [size_t]. *)
Record ReserveFunc : Set := mkReserveFunc { ReserveFunc_capacity_ : N }.

Definition ReserveFunc_GetCapacity (obj : ReserveFunc) : N :=
  ReserveFunc_capacity_ obj.

Definition Reserve_request (capacity_to_reserve : N) : ReserveFunc :=
  mkReserveFunc capacity_to_reserve.

(** [cbegin] and [cend] return what [begin] and [end] return. *)
Definition cbegin : M (SimpleVector T) N := begin_.
Definition cend : M (SimpleVector T) N := end_.

(** [v.PushBack(x1); v.PushBack(x2); ...], one call per item. *)
Fixpoint PushBack_each (items : list T) : M (SimpleVector T) unit :=
  match items with
  | [] => ret tt
  | item :: rest => PushBack item ;; PushBack_each rest
  end.

(** The data model in full: the live elements fit the reported capacity,
    the reported capacity is the size of the owned block, and the block is
    one that [new] can have returned. *)
Record well_formed (v : SimpleVector T) : Prop := mkWellFormed {
  wf_size : size_ v <= capacity_ v;
  wf_capacity : capacity_ v = N.of_nat (length (simple_vector_ v));
  wf_alloc : capacity_ v <= max_alloc
}.

End Sequences.

(** * Properties *)

(** ** [size_t] arithmetic away from its bound *)

Lemma size_wrap_small (x : N) : x < 2 ^ 64 -> size_wrap x = x.
Proof. intros H. unfold size_wrap, SIZE_WIDTH. now apply N.mod_small. Qed.

Lemma size_add_small (a b : N) : a + b < 2 ^ 64 -> size_add a b = a + b.
Proof. apply size_wrap_small. Qed.

Lemma size_mul_small (a b : N) : a * b < 2 ^ 64 -> size_mul a b = a * b.
Proof. apply size_wrap_small. Qed.

Lemma size_dec_pos (a : N) : 0 < a -> a < 2 ^ 64 -> size_dec a = a - 1.
Proof.
  intros Hpos Hlt. unfold size_dec, size_wrap, SIZE_WIDTH.
  replace (a + (2 ^ 64 - 1)) with (a - 1 + 1 * 2 ^ 64) by lia.
  rewrite N.Div0.mod_add. apply N.mod_small. lia.
Qed.

Section Algorithms.

Context {T : Type} {P : Platform T}.
Implicit Types (buf src dst : list T) (x value : T).

Lemma fill_loop_spec (n : nat) : forall buf first value,
  (first + n <= length buf)%nat ->
  fill_loop n buf first value
  = Some (take first buf ++ replicate n value ++ drop (first + n) buf).
Proof.
  induction n as [|n IH]; intros buf first value Hlen; simpl.
  - now rewrite Nat.add_0_r, take_drop.
  - destruct (buf !! first) eqn:Hslot.
    2: { apply lookup_ge_None in Hslot. lia. }
    rewrite IH by (rewrite length_insert; lia).
    rewrite (take_S_r _ _ value)
      by (apply list_lookup_insert_eq; apply lookup_lt_Some in Hslot; lia).
    rewrite take_insert_ge by lia.
    rewrite drop_insert_lt by lia.
    rewrite <- app_assoc. simpl. now rewrite Nat.add_succ_r.
Qed.

Lemma fill_loop_length (n : nat) : forall buf first value r,
  fill_loop n buf first value = Some r -> length r = length buf.
Proof.
  induction n as [|n IH]; intros buf first value r; simpl.
  - now intros [= <-].
  - destruct (buf !! first); [|discriminate].
    intros H. apply IH in H. now rewrite length_insert in H.
Qed.

Lemma copy_loop_spec (n : nat) : forall src first dst d_first,
  (first + n <= length src)%nat ->
  (d_first + n <= length dst)%nat ->
  copy_loop n src first dst d_first
  = Some (take d_first dst ++ take n (drop first src)
          ++ drop (d_first + n) dst).
Proof.
  induction n as [|n IH]; intros src first dst d_first Hsrc Hdst; simpl.
  - now rewrite Nat.add_0_r, take_drop.
  - destruct (src !! first) as [x|] eqn:Hx.
    2: { apply lookup_ge_None in Hx. lia. }
    destruct (dst !! d_first) eqn:Hslot.
    2: { apply lookup_ge_None in Hslot. lia. }
    rewrite IH by (rewrite ?length_insert; lia).
    rewrite (take_S_r _ _ x)
      by (apply list_lookup_insert_eq; apply lookup_lt_Some in Hslot; lia).
    rewrite take_insert_ge by lia.
    rewrite drop_insert_lt by lia.
    rewrite (drop_S _ _ _ Hx). simpl.
    rewrite <- app_assoc. simpl. now rewrite Nat.add_succ_r.
Qed.

Lemma copy_loop_length (n : nat) : forall src first dst d_first r,
  copy_loop n src first dst d_first = Some r -> length r = length dst.
Proof.
  induction n as [|n IH]; intros src first dst d_first r; simpl.
  - now intros [= <-].
  - destruct (src !! first); [|discriminate].
    destruct (dst !! d_first); [|discriminate].
    intros H. apply IH in H. now rewrite length_insert in H.
Qed.

(** Moving a range towards the front of its own buffer reads every slot
    before it is overwritten. *)
Lemma move_within_loop_spec (n : nat) : forall buf first d_first,
  (d_first <= first)%nat ->
  (first + n <= length buf)%nat ->
  move_within_loop n buf first d_first
  = Some (take d_first buf ++ take n (drop first buf)
          ++ drop (d_first + n) buf).
Proof.
  induction n as [|n IH]; intros buf first d_first Hle Hlen; simpl.
  - now rewrite Nat.add_0_r, take_drop.
  - destruct (buf !! first) as [x|] eqn:Hx.
    2: { apply lookup_ge_None in Hx. lia. }
    destruct (buf !! d_first) eqn:Hslot.
    2: { apply lookup_ge_None in Hslot. lia. }
    rewrite IH by (rewrite ?length_insert; lia).
    rewrite (take_S_r _ _ x)
      by (apply list_lookup_insert_eq; apply lookup_lt_Some in Hslot; lia).
    rewrite take_insert_ge by lia.
    rewrite !drop_insert_lt by lia.
    rewrite (drop_S _ _ _ Hx). simpl.
    rewrite <- app_assoc. simpl. now rewrite Nat.add_succ_r.
Qed.

Lemma std_fill_spec buf (first last : N) value :
  first <= last ->
  last <= N.of_nat (length buf) ->
  std_fill buf first last value
  = Some (take (N.to_nat first) buf
          ++ replicate (N.to_nat (last - first)) value
          ++ drop (N.to_nat last) buf).
Proof.
  intros Hle Hlen. unfold std_fill.
  rewrite (proj2 (N.leb_le _ _) Hle).
  rewrite fill_loop_spec by lia.
  repeat f_equal; lia.
Qed.

Lemma std_copy_spec src (first last : N) dst (d_first : N) :
  first <= last ->
  last <= N.of_nat (length src) ->
  d_first + (last - first) <= N.of_nat (length dst) ->
  std_copy src first last dst d_first
  = Some (take (N.to_nat d_first) dst
          ++ take (N.to_nat (last - first)) (drop (N.to_nat first) src)
          ++ drop (N.to_nat (d_first + (last - first))) dst).
Proof.
  intros Hle Hsrc Hdst. unfold std_copy.
  rewrite (proj2 (N.leb_le _ _) Hle).
  rewrite copy_loop_spec by lia.
  repeat f_equal; lia.
Qed.

Lemma std_copy_length src (first last : N) dst (d_first : N) r :
  std_copy src first last dst d_first = Some r -> length r = length dst.
Proof.
  unfold std_copy. destruct (first <=? last); [|discriminate].
  apply copy_loop_length.
Qed.

Lemma std_move_within_spec buf (first last d_first : N) :
  d_first <= first ->
  first <= last ->
  last <= N.of_nat (length buf) ->
  std_move_within buf first last d_first
  = Some (take (N.to_nat d_first) buf
          ++ take (N.to_nat (last - first)) (drop (N.to_nat first) buf)
          ++ drop (N.to_nat (d_first + (last - first))) buf).
Proof.
  intros Hd Hle Hlen. unfold std_move_within.
  rewrite (proj2 (N.leb_le _ _) Hle).
  rewrite move_within_loop_spec by lia.
  repeat f_equal; lia.
Qed.

Lemma ArrayPtr_new_ok {St} (size : N) (s : St) :
  size <= max_alloc ->
  ArrayPtr_new size s = Ok (replicate (N.to_nat size) fresh_value) s.
Proof.
  intros H. unfold ArrayPtr_new. apply N.leb_le in H. now rewrite H.
Qed.

Lemma ArrayPtr_new_fails {St} (size : N) (s : St) :
  max_alloc < size -> ArrayPtr_new size s = Fail AllocFailure s.
Proof.
  intros H. unfold ArrayPtr_new. apply N.leb_gt in H. now rewrite H.
Qed.

Lemma ArrayPtr_store_ok buf (i : N) x :
  i < N.of_nat (length buf) ->
  ArrayPtr_store buf i x = Some (<[N.to_nat i := x]> buf).
Proof.
  intros H. unfold ArrayPtr_store.
  destruct (buf !! N.to_nat i) eqn:E; [reflexivity|].
  apply lookup_ge_None in E. lia.
Qed.

Lemma ArrayPtr_store_out_of_bounds buf (i : N) x :
  N.of_nat (length buf) <= i -> ArrayPtr_store buf i x = None.
Proof.
  intros H. unfold ArrayPtr_store.
  rewrite (proj2 (lookup_ge_None buf (N.to_nat i))) by lia. reflexivity.
Qed.

End Algorithms.

(** ** Appending *)

Section Append.

Context {T : Type} {P : Platform T}.
Implicit Types (buf src dst temp : list T) (v : SimpleVector T).

Lemma std_fill_whole buf (n : N) value :
  N.of_nat (length buf) = n ->
  std_fill buf 0 n value = Some (replicate (N.to_nat n) value).
Proof.
  intros Hlen. rewrite std_fill_spec by lia.
  rewrite drop_ge by lia. simpl. rewrite app_nil_r.
  repeat f_equal; lia.
Qed.

Lemma std_copy_prefix src (n : N) dst :
  n <= N.of_nat (length src) ->
  n <= N.of_nat (length dst) ->
  std_copy src 0 n dst 0
  = Some (take (N.to_nat n) src ++ drop (N.to_nat n) dst).
Proof.
  intros Hsrc Hdst. rewrite std_copy_spec by lia. simpl.
  repeat f_equal; lia.
Qed.

(** The buffer an append leaves when it had to grow: the old live
    elements, the new one, and whatever the new block held behind them. *)
Lemma grown_buffer_shape src temp (n : N) x :
  n <= N.of_nat (length src) ->
  n < N.of_nat (length temp) ->
  let buf' := <[N.to_nat n := x]> (take (N.to_nat n) src
                                   ++ drop (N.to_nat n) temp) in
  length buf' = length temp
  /\ take (N.to_nat n) buf' = take (N.to_nat n) src
  /\ buf' !! N.to_nat n = Some x.
Proof.
  intros Hsrc Htemp buf'. subst buf'.
  assert (Hlen : length (take (N.to_nat n) src ++ drop (N.to_nat n) temp)
                 = length temp).
  { rewrite length_app, length_take, length_drop. lia. }
  repeat split.
  - now rewrite length_insert.
  - rewrite take_insert_ge by lia.
    rewrite take_app_length'; [reflexivity|].
    rewrite length_take. lia.
  - apply list_lookup_insert_eq. lia.
Qed.

(** C6.  [PushBack], by copy or by transfer, on a vector whose live
    elements and reported capacity fit its buffer: when [size_ + 1]
    exceeds [capacity_] and the allocation succeeds, the buffer is replaced
    by one of exactly [max(size_ + 1, capacity_ * 2)] slots that starts
    with the old live elements in order, the item lands in slot [size_]
    and [size_] grows by one; otherwise the item is written into slot
    [size_] of the buffer the vector already owns and the capacity stays.
    From capacity 0 the capacity becomes at least 1. *)
Theorem PushBack_appends
    (push : T -> M (SimpleVector T) unit) (item : T) v :
  push = PushBack \/ push = PushBack_move ->
  backed v ->
  let n := size_ v in
  let c := capacity_ v in
  let grown := N.max (n + 1) (c * 2) in
  (c < n + 1 -> grown <= max_alloc ->
   exists buf',
     push item v = Ok tt (mkSimpleVector buf' (n + 1) grown)
     /\ N.of_nat (length buf') = grown
     /\ take (N.to_nat n) buf' = take (N.to_nat n) (simple_vector_ v)
     /\ buf' !! N.to_nat n = Some item)
  /\ (n + 1 <= c ->
      push item v
      = Ok tt (mkSimpleVector (<[N.to_nat n := item]> (simple_vector_ v))
                              (n + 1) c))
  /\ (c = 0 -> grown <= max_alloc ->
      exists v', push item v = Ok tt v' /\ 1 <= capacity_ v').
Proof.
  intros Hpush [Hsize Hcap Halloc] n c grown.
  destruct v as [buf n0 c0]. simpl in *. subst n c.
  pose proof max_alloc_bound as Hbound.
  assert (Hadd : size_add n0 1 = n0 + 1) by (apply size_add_small; lia).
  assert (Hmul : size_mul c0 2 = c0 * 2) by (apply size_mul_small; lia).
  assert (Hgrow : c0 < n0 + 1 -> grown <= max_alloc ->
    exists buf',
      push item (mkSimpleVector buf n0 c0)
      = Ok tt (mkSimpleVector buf' (n0 + 1) grown)
      /\ N.of_nat (length buf') = grown
      /\ take (N.to_nat n0) buf' = take (N.to_nat n0) buf
      /\ buf' !! N.to_nat n0 = Some item).
  { intros Hlt Hmax. subst grown.
    set (g := N.max (n0 + 1) (c0 * 2)) in *.
    assert (Hg : n0 < g) by lia.
    destruct Hpush as [-> | ->].
    - pose proof (grown_buffer_shape buf
                    (replicate (N.to_nat g) default_value) n0 item) as Hshape.
      rewrite length_replicate in Hshape.
      destruct Hshape as (Hlen & Htake & Hat); [lia | lia |].
      eexists. split; [|split; [|split]]; [| | exact Htake | exact Hat];
        [|lia].
      unfold PushBack, bind, get. simpl.
      rewrite ?N.add_0_l, Hadd, Hmul. fold g.
      rewrite (proj2 (N.ltb_lt _ _) Hlt).
      rewrite ArrayPtr_new_ok by lia. simpl.
      rewrite std_fill_whole by (rewrite length_replicate; lia). simpl.
      rewrite std_copy_prefix by (rewrite ?length_replicate; lia). simpl.
      rewrite ArrayPtr_store_ok.
      2: { rewrite length_app, length_take, length_drop, length_replicate.
           lia. }
      simpl. now rewrite Hadd.
    - pose proof (grown_buffer_shape buf
                    (replicate (N.to_nat g) fresh_value) n0 item) as Hshape.
      rewrite length_replicate in Hshape.
      destruct Hshape as (Hlen & Htake & Hat); [lia | lia |].
      eexists. split; [|split; [|split]]; [| | exact Htake | exact Hat];
        [|lia].
      unfold PushBack_move, bind, get. simpl.
      rewrite ?N.add_0_l, Hadd, Hmul. fold g.
      rewrite (proj2 (N.ltb_lt _ _) Hlt).
      rewrite ArrayPtr_new_ok by lia. simpl.
      rewrite std_copy_prefix by (rewrite ?length_replicate; lia). simpl.
      rewrite ArrayPtr_store_ok.
      2: { rewrite length_app, length_take, length_drop, length_replicate.
           lia. }
      simpl. now rewrite Hadd. }
  split; [exact Hgrow|]. split.
  - intros Hle.
    assert (Hnb : (c0 <? n0 + 1) = false) by (apply N.ltb_ge; lia).
    destruct Hpush as [-> | ->].
    + unfold PushBack, bind, get. simpl. rewrite Hadd, Hnb. simpl.
      rewrite ArrayPtr_store_ok by lia. simpl. now rewrite Hadd.
    + unfold PushBack_move, bind, get. simpl. rewrite Hadd, Hnb. simpl.
      rewrite ArrayPtr_store_ok by lia. simpl. now rewrite Hadd.
  - intros Hzero Hmax.
    destruct Hgrow as (buf' & Heq & _); [lia | exact Hmax |].
    eexists. split; [exact Heq|]. simpl. lia.
Qed.

End Append.

(** ** Erasing *)

Section Erase.

Context {T : Type} {P : Platform T}.
Implicit Types (buf : list T) (v : SimpleVector T).

Lemma assert_passes {St} (cond : bool) (s : St) :
  cond = true -> assert_ cond s = Ok tt s.
Proof. intros ->. unfold assert_. now rewrite orb_true_r. Qed.

(** The buffer after the left shift of [Erase], cut at the new length. *)
Lemma erased_live_range buf (p n : nat) :
  (p < n <= length buf)%nat ->
  take (n - 1) (take p buf ++ take (n - (p + 1)) (drop (p + 1) buf)
                ++ drop (p + (n - (p + 1))) buf)
  = take p (take n buf) ++ drop (S p) (take n buf).
Proof.
  intros Hp.
  rewrite take_app, length_take, (take_ge (take p buf))
    by (rewrite length_take; lia).
  rewrite take_app, length_take, length_drop.
  rewrite (take_ge (take _ (drop _ buf)))
    by (rewrite length_take, length_drop; lia).
  replace (n - 1 - p `min` length buf
           - (n - (p + 1)) `min` (length buf - (p + 1)))%nat with 0%nat
    by lia.
  rewrite take_0, app_nil_r.
  rewrite take_take, Nat.min_l by lia.
  rewrite take_drop_commute.
  repeat f_equal; lia.
Qed.

(** C7.  [Erase] at a live position [pos] of a vector of length [n]:
    the live elements become the old ones before [pos] followed by the old
    ones after [pos], in order; the length is [n - 1], the capacity is
    kept; the result is the position [pos] itself, which now holds the
    old successor of the erased element, or is the end position when the
    last element was erased. *)
Theorem Erase_shifts_left (pos : N) v :
  backed v ->
  pos < size_ v ->
  exists v',
    Erase pos v = Ok pos v'
    /\ size_ v' = size_ v - 1
    /\ capacity_ v' = capacity_ v
    /\ contents v'
       = take (N.to_nat pos) (contents v)
         ++ drop (S (N.to_nat pos)) (contents v)
    /\ (pos + 1 < size_ v ->
        ArrayPtr_at (simple_vector_ v') pos
        = ArrayPtr_at (simple_vector_ v) (pos + 1))
    /\ (pos + 1 = size_ v -> end_ v' = Ok pos v').
Proof.
  intros [Hsize _ Halloc] Hpos.
  destruct v as [buf n c]. simpl in *.
  pose proof max_alloc_bound as Hbound.
  eexists. split.
  { unfold Erase, bind, get. simpl.
    rewrite assert_passes by (apply negb_true_iff, N.eqb_neq; lia).
    rewrite N.sub_0_r.
    rewrite std_move_within_spec by lia. simpl.
    rewrite size_dec_pos by lia. reflexivity. }
  simpl. unfold contents. simpl. rewrite !N.add_0_l.
  split; [reflexivity|]. split; [reflexivity|].
  replace (N.to_nat (pos + (n - (pos + 1))))
    with (N.to_nat pos + (N.to_nat n - (N.to_nat pos + 1)))%nat by lia.
  replace (N.to_nat (n - (pos + 1)))
    with (N.to_nat n - (N.to_nat pos + 1))%nat by lia.
  replace (N.to_nat (pos + 1)) with (N.to_nat pos + 1)%nat by lia.
  replace (N.to_nat (n - 1)) with (N.to_nat n - 1)%nat by lia.
  split; [apply erased_live_range; lia|]. split.
  - intros Hnext. unfold ArrayPtr_at.
    replace (N.to_nat (pos + 1)) with (N.to_nat pos + 1)%nat by lia.
    rewrite lookup_app_r by (rewrite length_take; lia).
    rewrite length_take, Nat.min_l, Nat.sub_diag by lia.
    rewrite lookup_app_l by (rewrite length_take, length_drop; lia).
    rewrite lookup_take_lt by lia.
    rewrite lookup_drop. now rewrite Nat.add_0_r.
  - intros Hlast. unfold end_, bind, get, ret. simpl.
    repeat f_equal. lia.
Qed.

End Erase.

(** ** Ownership transfer and assignment *)

Section Ownership.

Context {T : Type} {P : Platform T}.
Implicit Types (v : SimpleVector T) (objects : Store T).

(** C10.  Move construction from [v], when the block the constructor
    allocates for itself can be had: the constructed object is [v] as it
    was, buffer, length and capacity; the source is left with length 0
    and capacity 0, and [IsEmpty] answers [true] on it. *)
Theorem ctor_move_transfers v :
  capacity_ v <= max_alloc ->
  exists source',
    ctor_move v = Ok v source'
    /\ GetSize source' = Ok 0 source'
    /\ GetCapacity source' = Ok 0 source'
    /\ IsEmpty source' = Ok true source'.
Proof.
  intros Halloc. destruct v as [buf n c]. simpl in *.
  eexists. split.
  - unfold ctor_move, bind, get. simpl.
    rewrite ArrayPtr_new_ok by exact Halloc. reflexivity.
  - repeat split.
Qed.

(** C9.  Copy assignment between the objects at [this] and [rhs]:
    assigning an object to itself changes nothing; a failure leaves the
    whole store, the receiver included, as it was; and when the assignment
    completes, the store differs only at [this], which holds the object
    the copy constructor built from [rhs]. *)
Theorem operator_assign_copy_and_swap (this rhs : nat) objects :
  (this = rhs -> operator_assign this rhs objects = Ok tt objects)
  /\ (forall e objects',
        operator_assign this rhs objects = Fail e objects' ->
        objects' = objects)
  /\ (this <> rhs ->
      forall objects',
        operator_assign this rhs objects = Ok tt objects' ->
        exists rhs_obj helper,
          objects !! rhs = Some rhs_obj
          /\ construct (ctor_copy rhs_obj) = Ok tt helper
          /\ objects' = <[this := helper]> objects).
Proof.
  unfold operator_assign.
  destruct (Nat.eqb_spec this rhs) as [Heq | Hne]; simpl.
  - split; [reflexivity|]. split; [intros ? ? [=]|].
    intros Hne. now destruct Hne.
  - split; [intros Heq; now destruct Hne|].
    unfold bind, get, local_object. unfold Store in *.
    destruct (objects !! rhs) as [rhs_obj|]; simpl.
    2: { split; [intros ? ? [=]|]. intros _ ? [=]. }
    destruct (construct (ctor_copy rhs_obj))
      as [[] helper | e partial |] eqn:Hcopy.
    + destruct (objects !! this) as [this_obj|]; simpl.
      2: { split; [intros ? ? [=]|]. intros _ ? [=]. }
      split; [intros ? ? [=]|]. intros _ objects' [= <-].
      exists rhs_obj, helper. repeat split; [exact Hcopy|].
      now destruct helper.
    + split; [now intros ? ? [= _ <-]|]. intros _ ? [=].
    + split; [intros ? ? [=]|]. intros _ ? [=].
Qed.

End Ownership.

(** ** Checked access, and which calls can throw *)

Section Failures.

Context {T : Type} {P : Platform T}.
Implicit Types (v : SimpleVector T) (objects : Store T).

Abbreviation quiet := (never_fails_with OutOfRange).

Lemma quiet_ret {St A} (a : A) : quiet (ret (St := St) a).
Proof. intros s s'. discriminate. Qed.

Lemma quiet_bind {St A B} (m : M St A) (f : A -> M St B) :
  quiet m -> (forall a, quiet (f a)) -> quiet (bind m f).
Proof.
  intros Hm Hf s s'. unfold bind.
  destruct (m s) as [a s1 | e s1 |] eqn:Hms.
  - apply Hf.
  - intros [= -> ->]. now apply (Hm s s').
  - discriminate.
Qed.

Lemma quiet_get {St} : quiet (get (St := St)).
Proof. intros s s'. discriminate. Qed.

Lemma quiet_put {St} (s0 : St) : quiet (put s0).
Proof. intros s s'. discriminate. Qed.

Lemma quiet_lift_ub {St A} (o : option A) : quiet (lift_ub (St := St) o).
Proof. intros s s'. destruct o; discriminate. Qed.

Lemma quiet_assert {St} (cond : bool) : quiet (assert_ (St := St) cond).
Proof.
  intros s s'. unfold assert_. destruct (NDEBUG || cond); discriminate.
Qed.

Lemma quiet_ArrayPtr_new {St} (size : N) :
  quiet (ArrayPtr_new (St := St) size).
Proof.
  intros s s'. unfold ArrayPtr_new. destruct (size <=? max_alloc); discriminate.
Qed.

Lemma quiet_set_buffer buf : quiet (set_buffer (T := T) buf).
Proof. intros s s'. discriminate. Qed.

Lemma quiet_set_size n : quiet (set_size (T := T) n).
Proof. intros s s'. discriminate. Qed.

Lemma quiet_set_capacity n : quiet (set_capacity (T := T) n).
Proof. intros s s'. discriminate. Qed.

Lemma quiet_local_object (ctor : M (SimpleVector T) unit) :
  quiet ctor -> quiet (local_object ctor).
Proof.
  intros Hctor objects objects'. unfold local_object, construct.
  destruct (ctor blank) as [a s1 | e s1 |] eqn:Hrun; try discriminate.
  intros [= -> _]. now apply (Hctor blank s1).
Qed.

Create HintDb quiet discriminated.
Hint Resolve quiet_ret quiet_get quiet_put quiet_lift_ub quiet_assert
  quiet_ArrayPtr_new quiet_set_buffer quiet_set_size quiet_set_capacity
  : quiet.

(** Walks a member function statement by statement. *)
Ltac quiet_body :=
  repeat first
    [ solve [auto with quiet]
    | apply quiet_bind; [| intros ?]
    | apply quiet_local_object
    | match goal with
      | |- never_fails_with _ (if ?b then _ else _) => destruct b
      | |- never_fails_with _ (let '(_, _) := ?p in _) => destruct p
      end ].

Lemma quiet_Fill {St} buf (first last : N) :
  quiet (Fill (St := St) buf first last).
Proof. unfold Fill. quiet_body. Qed.

Hint Resolve quiet_Fill : quiet.

Lemma quiet_ctor_copy v : quiet (ctor_copy v).
Proof. unfold ctor_copy. quiet_body. Qed.

Lemma quiet_Reserve n : quiet (Reserve (T := T) n).
Proof. unfold Reserve. quiet_body. Qed.

Lemma quiet_ctor (c : CtorCall) : quiet (ctor_of c).
Proof.
  destruct c; simpl;
    [ unfold ctor_default | unfold ctor_sized, ctor_fill | unfold ctor_fill
    | unfold ctor_list | apply quiet_ctor_copy
    | unfold ctor_reserve; apply quiet_Reserve ];
    quiet_body.
Qed.

Lemma quiet_ctor_move : quiet (ctor_move (T := T)).
Proof. unfold ctor_move. quiet_body. Qed.

Lemma quiet_operator_assign (this rhs : nat) :
  quiet (operator_assign (T := T) this rhs).
Proof.
  unfold operator_assign. destruct (negb (this =? rhs)%nat); [|quiet_body].
  pose proof quiet_ctor_copy. quiet_body.
Qed.

Lemma quiet_invoke (c : MemberCall) :
  (forall index, c <> CallAt index) -> quiet (invoke c).
Proof.
  intros Hc. destruct c; simpl; try (now destruct (Hc index));
    [ unfold operator_index | unfold begin_ | unfold end_ | unfold GetSize
    | unfold GetCapacity | unfold IsEmpty | unfold Clear | unfold Resize
    | unfold PushBack | unfold PushBack_move | unfold Insert
    | unfold PopBack | unfold Erase | pose proof quiet_Reserve ];
    quiet_body.
Qed.

(** C8.  [At index] ends in the out-of-range failure, the vector as it
    was, when [index] is not below [size_]; below [size_] it is the
    unchecked access and does not fail.  No other member function, no
    constructor and no assignment ends in that failure. *)
Theorem At_checks_the_length (index : N) v :
  (size_ v <= index -> At index v = Fail OutOfRange v)
  /\ (index < size_ v ->
      At index v = operator_index index v
      /\ forall e s, At index v <> Fail e s)
  /\ (forall c s,
        invoke c v = Fail OutOfRange s -> exists i, c = CallAt i)
  /\ (forall c s, construct (ctor_of c) <> Fail OutOfRange s)
  /\ (forall s, ctor_move v <> Fail OutOfRange s)
  /\ (forall this rhs objects objects',
        operator_assign this rhs objects <> Fail OutOfRange objects').
Proof.
  split; [|split; [|repeat split]].
  - intros Hge. unfold At, bind, get. simpl.
    now rewrite (proj2 (N.leb_le _ _) Hge).
  - intros Hlt. split.
    + unfold At, operator_index, bind, get. simpl.
      rewrite (proj2 (N.leb_gt _ _) Hlt).
      rewrite assert_passes by now apply N.ltb_lt.
      reflexivity.
    + intros e s. unfold At, bind, get. simpl.
      rewrite (proj2 (N.leb_gt _ _) Hlt).
      destruct (ArrayPtr_at (simple_vector_ v) index); discriminate.
  - intros c s Hfail. destruct c; try (eexists; reflexivity);
      exfalso; revert Hfail; apply quiet_invoke; discriminate.
  - intros c s. apply quiet_ctor.
  - intros s. apply quiet_ctor_move.
  - intros this rhs objects objects'. apply quiet_operator_assign.
Qed.

End Failures.

(** ** Where the code leaves the specified behaviour *)

Section Defects.

Context {T : Type} {P : Platform T}.
Implicit Types (buf src dst temp : list T) (v other : SimpleVector T).

(** The copy constructor sets [size_] and fills the buffer, and leaves
    [capacity_] at the 0 of its default member initialiser. *)
Lemma ctor_copy_drops_capacity other :
  size_ other <= capacity_ other ->
  size_ other <= N.of_nat (length (simple_vector_ other)) ->
  capacity_ other <= max_alloc ->
  exists buf,
    construct (ctor_copy other) = Ok tt (mkSimpleVector buf (size_ other) 0)
    /\ take (N.to_nat (size_ other)) buf = contents other.
Proof.
  intros Hle Hsize Halloc. destruct other as [src n c]. simpl in *.
  eexists. split.
  - unfold construct, ctor_copy, bind. simpl.
    rewrite ArrayPtr_new_ok by exact Halloc. simpl.
    rewrite std_copy_prefix by (rewrite ?length_replicate; lia).
    reflexivity.
  - unfold contents. simpl.
    rewrite take_app_length'; [reflexivity|].
    rewrite length_take. lia.
Qed.

Lemma copy_breaks_length_le_capacity other copy :
  0 < size_ other ->
  construct (ctor_copy other) = Ok tt copy ->
  ~ length_le_capacity copy.
Proof.
  intros Hpos. unfold construct, ctor_copy, bind, ArrayPtr_new.
  destruct (capacity_ other <=? max_alloc); [|discriminate]. simpl.
  destruct (std_copy _ _ _ _ _); [|discriminate]. simpl.
  intros [= <-]. unfold length_le_capacity. simpl. lia.
Qed.

Lemma copy_backward_loop_overflow (n : nat) src (last : nat) dst
    (d_last : nat) :
  (0 < n)%nat -> (length dst < d_last)%nat ->
  copy_backward_loop n src last dst d_last = None.
Proof.
  intros Hn Hd. destruct n as [|n]; [lia|].
  destruct last as [|last], d_last as [|d_last]; simpl; try reflexivity.
  rewrite (proj2 (lookup_ge_None dst d_last)) by lia.
  now destruct (src !! last).
Qed.

(** X10.  [Insert] into a full vector allocates [capacity_] slots, not
    [new_capacity], and then writes the slot behind them. *)
Lemma Insert_full_is_undefined (pos : N) (value : T) v :
  size_ v = capacity_ v ->
  0 < capacity_ v ->
  capacity_ v <= max_alloc ->
  pos <= size_ v ->
  Insert pos value v = UB.
Proof.
  intros Hfull Hpos Halloc Hrange. destruct v as [buf n c]. simpl in *.
  subst c. unfold Insert, bind, get. simpl.
  rewrite assert_passes
    by (apply andb_true_intro; split; apply N.leb_le; lia).
  simpl.
  rewrite (proj2 (N.eqb_neq n 0)) by lia.
  rewrite N.ltb_irrefl.
  rewrite ArrayPtr_new_ok by exact Halloc. simpl.
  rewrite !N.add_0_l, !N.sub_0_r.
  destruct (std_copy buf 0 n (replicate (N.to_nat n) fresh_value) 0)
    as [temp|] eqn:Hcopy; [|reflexivity]. simpl.
  apply std_copy_length in Hcopy. rewrite length_replicate in Hcopy.
  unfold std_copy_backward.
  rewrite (proj2 (N.leb_le pos n) Hrange).
  destruct (N.eq_dec pos n) as [-> | Hne].
  - rewrite N.sub_diag. simpl.
    rewrite ArrayPtr_store_out_of_bounds by lia. reflexivity.
  - rewrite copy_backward_loop_overflow by lia. reflexivity.
Qed.

Lemma fill_loop_overflow (n : nat) : forall buf (first : nat) value,
  (first <= length buf < first + n)%nat ->
  fill_loop n buf first value = None.
Proof.
  induction n as [|n IH]; intros buf first value Hlen; [lia|]. simpl.
  destruct (buf !! first) eqn:Hslot; [|reflexivity].
  apply lookup_lt_Some in Hslot.
  apply IH. rewrite length_insert. lia.
Qed.

(** X15.  [Resize] to a length between [size_] and [capacity_] fills
    [size_ + new_size] slots from [size_] on, and never touches [size_]. *)
Lemma Resize_within_capacity_keeps_size (new_size : N) v v' :
  size_ v < new_size ->
  new_size <= capacity_ v ->
  Resize new_size v = Ok tt v' ->
  size_ v' = size_ v /\ size_ v' <> new_size.
Proof.
  intros Hlt Hle. destruct v as [buf n c]. simpl in *.
  unfold Resize, bind, get. simpl.
  rewrite (proj2 (N.leb_gt new_size n)) by lia. simpl.
  rewrite (proj2 (N.leb_le new_size c)) by lia.
  unfold Fill, bind, assert_.
  destruct (NDEBUG || (n <? n + new_size)); [|discriminate]. simpl.
  destruct (std_fill buf n (n + new_size) default_value); [|discriminate].
  simpl. rewrite (proj2 (N.ltb_ge c new_size)) by lia. simpl.
  intros [= <-]. simpl. lia.
Qed.

Lemma Resize_within_capacity_overflows (new_size : N) v :
  backed v ->
  size_ v < new_size ->
  new_size <= capacity_ v ->
  N.of_nat (length (simple_vector_ v)) < size_ v + new_size ->
  Resize new_size v = UB.
Proof.
  intros [Hsize Hcap _] Hlt Hle Hover. destruct v as [buf n c]. simpl in *.
  unfold Resize, bind, get. simpl.
  rewrite (proj2 (N.leb_gt new_size n)) by lia. simpl.
  rewrite (proj2 (N.leb_le new_size c)) by lia.
  unfold Fill, bind.
  rewrite assert_passes by (apply N.ltb_lt; lia).
  unfold std_fill. rewrite (proj2 (N.leb_le n (n + new_size))) by lia.
  rewrite fill_loop_overflow by lia. reflexivity.
Qed.

(** X14.  [Resize] to a length that is not above [size_] goes on into the
    second [if] and fills [new_size] slots behind the new end. *)
Lemma Resize_shrink_overwrites (new_size : N) v :
  0 < new_size ->
  new_size <= size_ v ->
  size_ v <= capacity_ v ->
  new_size + new_size <= N.of_nat (length (simple_vector_ v)) ->
  Resize new_size v
  = Ok tt (mkSimpleVector
             (take (N.to_nat new_size) (simple_vector_ v)
              ++ replicate (N.to_nat new_size) default_value
              ++ drop (N.to_nat (new_size + new_size)) (simple_vector_ v))
             new_size (capacity_ v)).
Proof.
  intros Hpos Hle Hinv Hroom. destruct v as [buf n c]. simpl in *.
  unfold Resize, bind, get. simpl.
  rewrite (proj2 (N.leb_le new_size n)) by lia. simpl.
  rewrite (proj2 (N.leb_le new_size c)) by lia.
  unfold Fill, bind.
  rewrite assert_passes by (apply N.ltb_lt; lia).
  rewrite std_fill_spec by lia. simpl.
  rewrite (proj2 (N.ltb_ge c new_size)) by lia. simpl.
  repeat f_equal. lia.
Qed.

Lemma Resize_shrink_overflows (new_size : N) v :
  0 < new_size ->
  new_size <= size_ v ->
  backed v ->
  size_ v <= capacity_ v ->
  N.of_nat (length (simple_vector_ v)) < new_size + new_size ->
  Resize new_size v = UB.
Proof.
  intros Hpos Hle [Hsize Hcap _] Hinv Hover. destruct v as [buf n c].
  simpl in *. unfold Resize, bind, get. simpl.
  rewrite (proj2 (N.leb_le new_size n)) by lia. simpl.
  rewrite (proj2 (N.leb_le new_size c)) by lia.
  unfold Fill, bind.
  rewrite assert_passes by (apply N.ltb_lt; lia).
  unfold std_fill.
  rewrite (proj2 (N.leb_le new_size (new_size + new_size))) by lia.
  rewrite fill_loop_overflow by lia. reflexivity.
Qed.

(** [operator==] walks the live range of its left operand only. *)
Lemma equal_loop_prefix (n : nat) : forall (a b : list T) (i j : nat),
  (forall k, (k < n)%nat ->
     exists x y, a !! (i + k)%nat = Some x /\ b !! (j + k)%nat = Some y
                 /\ Type_eq x y = true) ->
  equal_loop n a i b j = Some true.
Proof.
  induction n as [|n IH]; intros a b i j Hall; [reflexivity|]. simpl.
  destruct (Hall 0%nat) as (x & y & Ha & Hb & Hxy); [lia|].
  rewrite !Nat.add_0_r in *. rewrite Ha, Hb, Hxy.
  apply IH. intros k Hk.
  destruct (Hall (S k)) as (x' & y' & Ha' & Hb' & Hxy'); [lia|].
  exists x', y'. now rewrite <- !Nat.add_succ_comm in *.
Qed.

Lemma operator_eq_accepts_prefix (lhs rhs : SimpleVector T) :
  (forall x, Type_eq x x = true) ->
  size_ lhs <= N.of_nat (length (simple_vector_ lhs)) ->
  size_ lhs <= N.of_nat (length (simple_vector_ rhs)) ->
  take (N.to_nat (size_ lhs)) (simple_vector_ rhs) = contents lhs ->
  operator_eq lhs rhs = Some true.
Proof.
  intros Hrefl Hl Hr Hprefix. unfold operator_eq, std_equal, contents in *.
  rewrite (proj2 (N.leb_le 0 (0 + size_ lhs))) by lia.
  apply equal_loop_prefix. simpl. intros k Hk.
  destruct (lookup_lt_is_Some_2 (simple_vector_ lhs) k) as [x Hx]; [lia|].
  exists x, x. repeat split; [exact Hx| |apply Hrefl].
  rewrite <- (lookup_take_lt _ (N.to_nat (size_ lhs))) by lia.
  rewrite Hprefix. rewrite lookup_take_lt by lia. exact Hx.
Qed.

End Defects.

(** ** [SimpleVector<int>]: the code on concrete vectors *)

Section IntVectorFacts.

Import IntVector.
#[local] Existing Instance debug_build.

Lemma v123_constructed :
  construct (ctor_list [1; 2; 3]%Z) = Ok tt v123.
Proof. reflexivity. Qed.

Lemma v1234_constructed :
  construct (ctor_list [1; 2; 3; 4]%Z) = Ok tt v1234.
Proof. reflexivity. Qed.

Lemma reserved10_constructed :
  construct (ctor_reserve 10) = Ok tt reserved10.
Proof. reflexivity. Qed.

Lemma pushed123_constructed :
  (PushBack 1%Z ;; PushBack 2%Z ;; PushBack 3%Z) blank = Ok tt pushed123.
Proof. reflexivity. Qed.

(** Append 1, 2, 3 to an empty vector, insert 99 at position 1, erase
    position 0, then ask for index 5. *)
Lemma append_insert_erase_scenario :
  (PushBack 1%Z ;; PushBack 2%Z ;; PushBack 3%Z ;;
   Insert 1 99%Z ;; Erase 0 ;; At 5) blank
  = Fail OutOfRange (mkSimpleVector [99; 2; 3; 3]%Z 3 4)
  /\ contents (mkSimpleVector [99; 2; 3; 3]%Z 3 4) = [99; 2; 3]%Z.
Proof. split; reflexivity. Qed.

Lemma backed_v123 : backed v123.
Proof. split; vm_compute; discriminate. Qed.

(** C1.  The copy of [{1, 2, 3}], and the vector that was assigned
    [{1, 2, 3}], report length 3 and capacity 0: the copy constructor does
    not keep [size_ <= capacity_]. *)
Theorem copy_of_v123_reports_capacity_0 :
  length_le_capacity v123
  /\ construct (ctor_copy v123)
     = Ok tt (mkSimpleVector [1; 2; 3]%Z 3 0)
  /\ operator_assign 0 1 [blank; v123]
     = Ok tt [mkSimpleVector [1; 2; 3]%Z 3 0; v123]
  /\ ~ length_le_capacity (mkSimpleVector [1; 2; 3]%Z 3 0).
Proof.
  unfold length_le_capacity. simpl.
  repeat split; [lia | lia].
Qed.

(** C2.  [{1, 2} == {1, 2, 3}] is [true] and [!=] is [false] although the
    lengths differ; the other way round the comparison reads past the
    buffer of [{1, 2}]. *)
Theorem operator_eq_ignores_the_length_of_rhs :
  operator_eq v12 v123 = Some true
  /\ operator_ne v12 v123 = Some false
  /\ size_ v12 <> size_ v123
  /\ operator_eq v123 v12 = None.
Proof. repeat split. discriminate. Qed.

(** C3.  [Insert] of 99 before the second element of the full vector
    [{1, 2, 3}] writes outside the block it allocated, with and without
    [NDEBUG]. *)
Theorem Insert_into_full_v123_is_undefined :
  size_ v123 = capacity_ v123
  /\ Insert 1 99%Z v123 = UB
  /\ Insert (P := release_build) 1 99%Z v123 = UB.
Proof. repeat split. Qed.

(** C4.  [Resize(5)] on a vector of length 0 and capacity 10 leaves the
    length at 0; [Resize(4)] on a vector of length 3 and capacity 4 fills
    slots 3 to 6 and so leaves the buffer. *)
Theorem Resize_within_capacity_does_not_set_the_length :
  Resize 5 reserved10 = Ok tt reserved10
  /\ Resize (P := release_build) 5 reserved10 = Ok tt reserved10
  /\ size_ reserved10 = 0
  /\ Resize 4 pushed123 = UB
  /\ Resize (P := release_build) 4 pushed123 = UB.
Proof. repeat split. Qed.

(** C5.  [Resize(1)] on [{1, 2, 3, 4}] overwrites slot 1 with the default
    value; [Resize(2)] on [{1, 2, 3}] fills slots 2 and 3 and so leaves the
    buffer; [Resize(0)] fails the assertion of [Fill] in a build with
    assertions. *)
Theorem Resize_down_overwrites_behind_the_new_end :
  Resize 1 v1234
  = Ok tt (mkSimpleVector [1; 0; 3; 4]%Z 1 4)
  /\ Resize (P := release_build) 1 v1234
     = Ok tt (mkSimpleVector [1; 0; 3; 4]%Z 1 4)
  /\ ArrayPtr_at [1; 0; 3; 4]%Z 1 <> ArrayPtr_at (simple_vector_ v1234) 1
  /\ Resize 2 v123 = UB
  /\ Resize (P := release_build) 2 v123 = UB
  /\ Resize 0 v123
     = Fail AssertionFailed (mkSimpleVector [1; 2; 3]%Z 0 3).
Proof. repeat split. discriminate. Qed.

(** [PushBack(9)] on the full vector [{1, 2, 3}]. *)
Lemma PushBack_appends_witness :
  (PushBack = PushBack
   \/ PushBack = PushBack_move)
  /\ backed v123
  /\ exists buf',
       PushBack 9%Z v123
       = Ok tt (mkSimpleVector buf' 4 6)
       /\ N.of_nat (length buf') = 6
       /\ take 3 buf' = [1; 2; 3]%Z
       /\ buf' !! 3%nat = Some 9%Z.
Proof.
  split; [left; reflexivity|].
  split; [exact backed_v123|].
  refine (proj1 (PushBack_appends PushBack 9%Z v123
                   (or_introl eq_refl) backed_v123) eq_refl _);
    vm_compute; discriminate.
Defined.

(** [Erase] of the second element of [{1, 2, 3}]. *)
Lemma Erase_shifts_left_witness :
  backed v123
  /\ 1 < size_ v123
  /\ exists v',
       Erase 1 v123 = Ok 1 v'
       /\ size_ v' = 2
       /\ capacity_ v' = 3
       /\ contents v' = [1; 3]%Z
       /\ (1 + 1 < size_ v123 ->
           ArrayPtr_at (simple_vector_ v') 1 = Some 3%Z)
       /\ (1 + 1 = size_ v123 -> end_ v' = Ok 1 v').
Proof.
  split; [exact backed_v123|].
  split; [reflexivity|].
  exact (Erase_shifts_left 1 v123 backed_v123 eq_refl).
Defined.

(** [At(5)] and [At(1)] on [{1, 2, 3}]. *)
Lemma At_checks_the_length_witness :
  size_ v123 <= 5
  /\ At 5 v123 = Fail OutOfRange v123
  /\ 1 < size_ v123
  /\ At 1 v123 = operator_index 1 v123.
Proof.
  split; [vm_compute; discriminate|].
  split.
  - refine (proj1 (At_checks_the_length 5 v123) _).
    vm_compute; discriminate.
  - split; [reflexivity|].
    exact (proj1 (proj1 (proj2 (At_checks_the_length
                                  1 v123)) eq_refl)).
Defined.

(** Assigning [{1, 2, 3}] to [{1, 2}] where three elements cannot be
    allocated, and where they can. *)
Lemma operator_assign_copy_and_swap_witness :
  (exists objects',
     operator_assign (P := small_heap) 0 1 [v12; v123]
     = Fail AllocFailure objects'
     /\ objects' = [v12; v123])
  /\ operator_assign 0 0 [v12; v123] = Ok tt [v12; v123]
  /\ operator_assign 0 1 [v12; v123]
     = Ok tt [mkSimpleVector [1; 2; 3]%Z 3 0; v123]
  /\ exists rhs_obj helper,
       [v12; v123] !! 1%nat = Some rhs_obj
       /\ construct (ctor_copy rhs_obj) = Ok tt helper
       /\ [mkSimpleVector [1; 2; 3]%Z 3 0; v123]
          = <[0%nat := helper]> [v12; v123].
Proof.
  split.
  { exists [v12; v123]. split; [reflexivity|].
    exact (proj1 (proj2 (operator_assign_copy_and_swap (P := small_heap)
                           0 1 [v12; v123]))
             AllocFailure [v12; v123] eq_refl). }
  split; [|split; [reflexivity|]].
  - exact (proj1 (operator_assign_copy_and_swap
                    0 0 [v12; v123]) eq_refl).
  - refine (proj2 (proj2 (operator_assign_copy_and_swap
                            0 1 [v12; v123])) _
              [mkSimpleVector [1; 2; 3]%Z 3 0; v123] eq_refl).
    discriminate.
Defined.

(** Move construction from [{1, 2, 3}]. *)
Lemma ctor_move_transfers_witness :
  capacity_ v123 <= max_alloc
  /\ exists source',
       ctor_move v123 = Ok v123 source'
       /\ GetSize source' = Ok 0 source'
       /\ GetCapacity source' = Ok 0 source'
       /\ IsEmpty source' = Ok true source'.
Proof.
  split; [vm_compute; discriminate|].
  refine (ctor_move_transfers v123 _).
  vm_compute; discriminate.
Defined.

End IntVectorFacts.

(** * The rest of the interface *)

(** ** More on the loops *)

Section MoreAlgorithms.

Context {T : Type} {P : Platform T}.
Implicit Types (buf src dst a b : list T) (x value : T).

Lemma move_within_loop_length (n : nat) : forall buf first d_first r,
  move_within_loop n buf first d_first = Some r -> length r = length buf.
Proof.
  induction n as [|n IH]; intros buf first d_first r; simpl.
  - now intros [= <-].
  - destruct (buf !! first); [|discriminate].
    destruct (buf !! d_first); [|discriminate].
    intros H. apply IH in H. now rewrite length_insert in H.
Qed.

Lemma copy_backward_within_loop_length (n : nat) : forall buf last d_last r,
  copy_backward_within_loop n buf last d_last = Some r ->
  length r = length buf.
Proof.
  induction n as [|n IH]; intros buf last d_last r; simpl.
  - now intros [= <-].
  - destruct last as [|last]; [discriminate|].
    destruct d_last as [|d_last]; [discriminate|].
    destruct (buf !! last); [|discriminate].
    destruct (buf !! d_last); [|discriminate].
    intros H. apply IH in H. now rewrite length_insert in H.
Qed.

Lemma std_fill_length buf (first last : N) value r :
  std_fill buf first last value = Some r -> length r = length buf.
Proof.
  unfold std_fill. destruct (first <=? last); [|discriminate].
  apply fill_loop_length.
Qed.

Lemma std_move_within_length buf (first last d_first : N) r :
  std_move_within buf first last d_first = Some r -> length r = length buf.
Proof.
  unfold std_move_within. destruct (first <=? last); [|discriminate].
  apply move_within_loop_length.
Qed.

Lemma std_copy_backward_within_length buf (first last d_last : N) r :
  std_copy_backward_within buf first last d_last = Some r ->
  length r = length buf.
Proof.
  unfold std_copy_backward_within. destruct (first <=? last); [|discriminate].
  apply copy_backward_within_loop_length.
Qed.

Lemma ArrayPtr_store_length buf (i : N) x r :
  ArrayPtr_store buf i x = Some r ->
  length r = length buf /\ (N.to_nat i < length buf)%nat.
Proof.
  unfold ArrayPtr_store. destruct (buf !! N.to_nat i) eqn:E; [|discriminate].
  intros [= <-]. rewrite length_insert. split; [reflexivity|].
  now apply lookup_lt_Some in E.
Qed.

(** Copying a range backwards towards the back of its own buffer reads
    every slot before it is overwritten. *)
Lemma copy_backward_within_loop_spec (n : nat) : forall buf (k j : nat),
  (k <= j)%nat ->
  (j + n <= length buf)%nat ->
  copy_backward_within_loop n buf (k + n) (j + n)
  = Some (take j buf ++ take n (drop k buf) ++ drop (j + n) buf).
Proof.
  induction n as [|n IH]; intros buf k j Hkj Hlen.
  - simpl. now rewrite Nat.add_0_r, take_drop.
  - rewrite !Nat.add_succ_r. simpl.
    destruct (buf !! (k + n)%nat) as [x|] eqn:Hx.
    2: { apply lookup_ge_None in Hx. lia. }
    destruct (buf !! (j + n)%nat) eqn:Hslot.
    2: { apply lookup_ge_None in Hslot. lia. }
    rewrite IH by (rewrite ?length_insert; lia).
    rewrite take_insert_ge by lia.
    rewrite (take_drop_commute (<[_ := _]> buf)).
    rewrite take_insert_ge by lia.
    rewrite <- take_drop_commute.
    rewrite (drop_S (<[(j + n)%nat := x]> buf) x (j + n))
      by (apply list_lookup_insert_eq; apply lookup_lt_Some in Hslot; lia).
    rewrite drop_insert_lt by lia.
    rewrite (take_S_r (drop k buf) n x) by (now rewrite lookup_drop).
    now rewrite <- app_assoc.
Qed.

Lemma std_copy_backward_within_spec buf (first last d_last : N) :
  first <= last ->
  last <= d_last ->
  d_last <= N.of_nat (length buf) ->
  std_copy_backward_within buf first last d_last
  = Some (take (N.to_nat (d_last - (last - first))) buf
          ++ take (N.to_nat (last - first)) (drop (N.to_nat first) buf)
          ++ drop (N.to_nat d_last) buf).
Proof.
  intros Hle Hd Hlen. unfold std_copy_backward_within.
  rewrite (proj2 (N.leb_le _ _) Hle).
  replace (N.to_nat last)
    with (N.to_nat first + N.to_nat (last - first))%nat by lia.
  replace (N.to_nat d_last)
    with (N.to_nat (d_last - (last - first)) + N.to_nat (last - first))%nat
    at 1 by lia.
  rewrite copy_backward_within_loop_spec by lia.
  repeat f_equal; lia.
Qed.

(** A forward copy whose destination range ends behind the destination
    buffer ends in an access outside it. *)
Lemma copy_loop_overflow (n : nat) :
  forall src (first : nat) dst (d_first : nat),
  (d_first <= length dst < d_first + n)%nat ->
  copy_loop n src first dst d_first = None.
Proof.
  induction n as [|n IH]; intros src first dst d_first Hlen; [lia|]. simpl.
  destruct (src !! first); [|reflexivity].
  destruct (dst !! d_first) eqn:Hslot; [|reflexivity].
  apply lookup_lt_Some in Hslot.
  apply IH. rewrite length_insert. lia.
Qed.

(** [std::equal] on two ranges that exist decides whether they hold the
    same elements, when [operator==] of the elements decides equality. *)
Lemma equal_loop_decides (n : nat) : forall a (i : nat) b (j : nat),
  (forall x y, Type_eq x y = true <-> x = y) ->
  (i + n <= length a)%nat ->
  (j + n <= length b)%nat ->
  exists r, equal_loop n a i b j = Some r
            /\ (r = true <-> take n (drop i a) = take n (drop j b)).
Proof.
  induction n as [|n IH]; intros a i b j Heq Ha Hb.
  - exists true. simpl. now rewrite !take_0.
  - simpl.
    destruct (a !! i) as [x|] eqn:Hx.
    2: { apply lookup_ge_None in Hx. lia. }
    destruct (b !! j) as [y|] eqn:Hy.
    2: { apply lookup_ge_None in Hy. lia. }
    rewrite (drop_S _ _ _ Hx), (drop_S _ _ _ Hy). simpl.
    destruct (Type_eq x y) eqn:Hxy.
    + apply Heq in Hxy as ->.
      destruct (IH a (S i) b (S j) Heq) as (r & Hr & Hiff); [lia | lia |].
      exists r. split; [exact Hr|]. rewrite Hiff.
      split; [now intros -> | now intros [= ->]].
    + exists false. split; [reflexivity|].
      split; [discriminate|]. intros [= Hxy' _].
      apply Heq in Hxy'. congruence.
Qed.

End MoreAlgorithms.

Section OrderingAlgorithm.

Context {T : Type}.
Variable Type_lt : T -> T -> bool.
Implicit Types (a b : list T).

Lemma lexicographical_compare_loop_spec (n1 : nat) :
  forall (n2 : nat) a (i : nat) b (j : nat),
  (i + n1 <= length a)%nat ->
  (j + n2 <= length b)%nat ->
  lexicographical_compare_loop Type_lt n1 n2 a i b j
  = Some (lexicographic_lt Type_lt (take n1 (drop i a)) (take n2 (drop j b))).
Proof.
  induction n1 as [|n1 IH]; intros n2 a i b j Ha Hb.
  - destruct n2 as [|n2]; simpl; [reflexivity|].
    destruct (b !! j) as [y|] eqn:Hy.
    2: { apply lookup_ge_None in Hy. lia. }
    now rewrite (drop_S _ _ _ Hy).
  - destruct (a !! i) as [x|] eqn:Hx.
    2: { apply lookup_ge_None in Hx. lia. }
    rewrite (drop_S _ _ _ Hx).
    destruct n2 as [|n2]; [reflexivity|].
    destruct (b !! j) as [y|] eqn:Hy.
    2: { apply lookup_ge_None in Hy. lia. }
    rewrite (drop_S _ _ _ Hy). simpl. rewrite Hx, Hy.
    destruct (Type_lt x y); [reflexivity|].
    destruct (Type_lt y x); [reflexivity|].
    apply IH; lia.
Qed.

End OrderingAlgorithm.

(** ** Constructors and [Reserve] *)

Section Construction.

Context {T : Type} {P : Platform T}.
Implicit Types (buf : list T) (v : SimpleVector T) (value : T).

Lemma std_fill_fresh_block (n : N) value :
  std_fill (replicate (N.to_nat n) fresh_value) 0 (0 + n) value
  = Some (replicate (N.to_nat n) value).
Proof.
  rewrite N.add_0_l. apply std_fill_whole. rewrite length_replicate. lia.
Qed.

(** X1.  [SimpleVector(size, value)] and [SimpleVector(size)]: when [size]
    elements can be allocated, the object has [size] slots that all hold
    [value] (the default value for the one-argument form), and its length
    and capacity are [size]; when they cannot, construction fails on the
    allocation. *)
Theorem ctor_fill_builds (size : N) value :
  (size <= max_alloc ->
   construct (ctor_fill size value)
   = Ok tt (mkSimpleVector (replicate (N.to_nat size) value) size size)
   /\ construct (ctor_sized size)
      = Ok tt (mkSimpleVector (replicate (N.to_nat size) default_value)
                              size size))
  /\ (max_alloc < size ->
      construct (ctor_fill size value) = Fail AllocFailure blank
      /\ construct (ctor_sized size) = Fail AllocFailure blank).
Proof.
  split.
  - intros Halloc. unfold ctor_sized, construct, ctor_fill, bind. simpl.
    rewrite !ArrayPtr_new_ok by exact Halloc. simpl.
    now rewrite !std_fill_fresh_block.
  - intros Halloc. unfold ctor_sized, construct, ctor_fill, bind.
    now rewrite !ArrayPtr_new_fails by exact Halloc.
Qed.

(** X2.  [SimpleVector(std::initializer_list)]: the object owns exactly the
    listed values, in order, with length and capacity their number. *)
Theorem ctor_list_builds (init : list T) :
  N.of_nat (length init) <= max_alloc ->
  construct (ctor_list init)
  = Ok tt (mkSimpleVector init (N.of_nat (length init))
                          (N.of_nat (length init)))
  /\ contents (mkSimpleVector init (N.of_nat (length init))
                              (N.of_nat (length init))) = init.
Proof.
  intros Halloc. split.
  - unfold construct, ctor_list, bind. simpl.
    rewrite ArrayPtr_new_ok by exact Halloc. simpl.
    rewrite std_copy_prefix by (rewrite ?length_replicate; lia). simpl.
    rewrite take_ge, drop_ge by (rewrite ?length_replicate; lia).
    now rewrite app_nil_r.
  - unfold contents. simpl. apply take_ge. lia.
Qed.

(** X4.  [Reserve(new_capacity)] on a vector whose live elements fit its buffer
    and its capacity: above the capacity, and when the block can be
    allocated, the live elements are kept in order, every slot behind them
    holds the default value, the length is kept and the capacity is exactly
    [new_capacity]; above the capacity, when the block cannot be allocated,
    the call fails and the vector is as it was; not above the capacity, the
    vector is as it was. *)
Theorem Reserve_grows_or_keeps (new_capacity : N) v :
  size_ v <= capacity_ v ->
  size_ v <= N.of_nat (length (simple_vector_ v)) ->
  (capacity_ v < new_capacity -> new_capacity <= max_alloc ->
   Reserve new_capacity v
   = Ok tt (mkSimpleVector
              (contents v
               ++ replicate (N.to_nat (new_capacity - size_ v)) default_value)
              (size_ v) new_capacity))
  /\ (capacity_ v < new_capacity -> max_alloc < new_capacity ->
      Reserve new_capacity v = Fail AllocFailure v)
  /\ (new_capacity <= capacity_ v -> Reserve new_capacity v = Ok tt v).
Proof.
  intros Hinv Hsize. destruct v as [buf n c]. unfold contents. simpl in *.
  split; [|split].
  - intros Hlt Halloc. unfold Reserve, bind, get. simpl.
    rewrite (proj2 (N.ltb_lt _ _) Hlt).
    rewrite ArrayPtr_new_ok by exact Halloc. simpl.
    rewrite std_fill_fresh_block. simpl.
    rewrite N.add_0_l.
    rewrite std_copy_prefix by (rewrite ?length_replicate; lia). simpl.
    rewrite drop_replicate. unfold set_capacity. simpl.
    repeat f_equal; lia.
  - intros Hlt Halloc. unfold Reserve, bind, get. simpl.
    rewrite (proj2 (N.ltb_lt _ _) Hlt).
    now rewrite ArrayPtr_new_fails by exact Halloc.
  - intros Hle. unfold Reserve, bind, get. simpl.
    now rewrite (proj2 (N.ltb_ge _ _) Hle).
Qed.

(** X3.  [SimpleVector(Reserve(n))]: length 0, capacity [n], [n] slots that hold
    the default value. *)
Theorem ctor_reserve_builds (capacity_to_reserve : N) :
  capacity_to_reserve <= max_alloc ->
  construct (ctor_reserve
               (ReserveFunc_GetCapacity (Reserve_request capacity_to_reserve)))
  = Ok tt (mkSimpleVector
             (replicate (N.to_nat capacity_to_reserve) default_value)
             0 capacity_to_reserve).
Proof.
  intros Halloc. unfold ReserveFunc_GetCapacity, Reserve_request. simpl.
  unfold construct, ctor_reserve.
  destruct (N.eq_dec capacity_to_reserve 0) as [-> | Hpos].
  - reflexivity.
  - unfold Reserve, bind, get. simpl.
    rewrite (proj2 (N.ltb_lt 0 capacity_to_reserve)) by lia.
    rewrite ArrayPtr_new_ok by exact Halloc. simpl.
    rewrite std_fill_fresh_block. reflexivity.
Qed.

End Construction.

(** ** Copies *)

Section Copies.

Context {T : Type} {P : Platform T}.
Implicit Types (buf : list T) (v other copy : SimpleVector T).

(** X5.  The copy constructor on a vector whose live elements fit its capacity
    and its buffer, when the block can be allocated: the copy has the length
    and the live elements of the source, and [operator==] holds between the
    two, in both directions, when [operator==] of the elements is
    reflexive. *)
Theorem ctor_copy_copies other :
  size_ other <= capacity_ other ->
  size_ other <= N.of_nat (length (simple_vector_ other)) ->
  capacity_ other <= max_alloc ->
  (forall x, Type_eq x x = true) ->
  exists copy,
    construct (ctor_copy other) = Ok tt copy
    /\ size_ copy = size_ other
    /\ contents copy = contents other
    /\ operator_eq copy other = Some true
    /\ operator_eq other copy = Some true.
Proof.
  intros Hinv Hsize Halloc Hrefl.
  destruct (ctor_copy_drops_capacity other Hinv Hsize Halloc)
    as (buf & Hrun & Htake).
  exists (mkSimpleVector buf (size_ other) 0).
  assert (Hlen : size_ other <= N.of_nat (length buf)).
  { apply (f_equal length) in Htake. unfold contents in Htake.
    rewrite !length_take in Htake. lia. }
  split; [exact Hrun|]. split; [reflexivity|]. split; [exact Htake|].
  split.
  - apply operator_eq_accepts_prefix; simpl; try assumption.
    unfold contents in *. simpl. now rewrite Htake.
  - apply operator_eq_accepts_prefix; simpl; assumption.
Qed.

(** X6.  Copying a copy: the copy of a non-empty vector reports capacity 0, so
    the copy constructor, given that copy, allocates no slot and then
    copies the live elements into it. *)
Theorem copy_of_a_copy_is_undefined v copy :
  0 < size_ v ->
  construct (ctor_copy v) = Ok tt copy ->
  construct (ctor_copy copy) = UB.
Proof.
  intros Hpos. unfold construct, ctor_copy at 1, bind, ArrayPtr_new.
  destruct (capacity_ v <=? max_alloc); [|discriminate]. simpl.
  destruct (std_copy _ _ _ _ _) as [buf|]; [|discriminate]. simpl.
  intros [= <-]. unfold ctor_copy, bind. simpl.
  rewrite ArrayPtr_new_ok by lia. simpl.
  unfold std_copy. rewrite (proj2 (N.leb_le 0 (0 + size_ v))) by lia.
  rewrite copy_loop_overflow by (simpl; lia). reflexivity.
Qed.

(** X7.  Copy assignment between two distinct objects, the right-hand side
    with its live elements within its capacity and its buffer, where the
    block can be allocated: the assignment completes, the right-hand side
    is as it was, and the receiver has the length and the live elements of
    the right-hand side, compares equal to it, and reports capacity 0. *)
Theorem operator_assign_copies (this rhs : nat) (objects : Store T)
        (this_obj rhs_obj : SimpleVector T) :
  this <> rhs ->
  objects !! this = Some this_obj ->
  objects !! rhs = Some rhs_obj ->
  size_ rhs_obj <= capacity_ rhs_obj ->
  size_ rhs_obj <= N.of_nat (length (simple_vector_ rhs_obj)) ->
  capacity_ rhs_obj <= max_alloc ->
  (forall x, Type_eq x x = true) ->
  exists objects' assigned,
    operator_assign this rhs objects = Ok tt objects'
    /\ objects' !! rhs = Some rhs_obj
    /\ objects' !! this = Some assigned
    /\ size_ assigned = size_ rhs_obj
    /\ contents assigned = contents rhs_obj
    /\ operator_eq assigned rhs_obj = Some true
    /\ capacity_ assigned = 0.
Proof.
  intros Hne Hthis Hrhs Hinv Hsize Halloc Hrefl.
  destruct (ctor_copy_drops_capacity rhs_obj Hinv Hsize Halloc)
    as (buf & Hrun & Htake).
  assert (Hlen : size_ rhs_obj <= N.of_nat (length buf)).
  { apply (f_equal length) in Htake. unfold contents in Htake.
    rewrite !length_take in Htake. lia. }
  exists (<[this := mkSimpleVector buf (size_ rhs_obj) 0]> objects),
         (mkSimpleVector buf (size_ rhs_obj) 0).
  split.
  { unfold operator_assign.
    rewrite (proj2 (Nat.eqb_neq this rhs) Hne). simpl.
    unfold bind, get, local_object. unfold Store in *.
    rewrite Hrhs. simpl. rewrite Hrun, Hthis. reflexivity. }
  unfold Store in *.
  split; [now rewrite list_lookup_insert_ne|].
  split.
  { apply list_lookup_insert_eq. now apply lookup_lt_Some in Hthis. }
  split; [reflexivity|]. split; [exact Htake|]. split; [|reflexivity].
  apply operator_eq_accepts_prefix; simpl; try assumption.
  unfold contents in *. simpl. now rewrite Htake.
Qed.

End Copies.

(** ** [Insert] with room, [PopBack], [Erase] off the live range,
       [Resize] above the capacity *)

Section Mutation.

Context {T : Type} {P : Platform T}.
Implicit Types (buf : list T) (v : SimpleVector T) (value : T).

(** The buffer after the right shift and the write of [Insert], cut at the
    new length. *)
Lemma inserted_live_range buf (p n : nat) value :
  (p <= n < length buf)%nat ->
  take (S n) (<[p := value]> (take (S p) buf ++ take (n - p) (drop p buf)
                              ++ drop (S n) buf))
  = take p (take n buf) ++ value :: drop p (take n buf).
Proof.
  intros Hp.
  destruct (lookup_lt_is_Some_2 buf p) as [x Hx]; [lia|].
  rewrite (take_S_r _ _ _ Hx), <- app_assoc. simpl.
  replace p with (length (take p buf) + 0)%nat at 1
    by (rewrite length_take; lia).
  rewrite insert_app_r. simpl.
  rewrite take_take, Nat.min_l by lia.
  replace (drop p (take n buf)) with (take (n - p) (drop p buf))
    by (rewrite take_drop_commute; repeat f_equal; lia).
  change (take (S n) (take p buf ++ (value :: take (n - p) (drop p buf))
                      ++ drop (S n) buf)
          = take p buf ++ value :: take (n - p) (drop p buf)).
  rewrite app_assoc, take_app_length'; [reflexivity|].
  rewrite length_app. simpl. rewrite !length_take, length_drop. lia.
Qed.

(** X8.  [Insert] at a valid position of a vector that has a free slot: the
    call returns the position it was given; the live elements become the
    old ones before the position, the value, and the old ones from the
    position on, in order; the length grows by one; capacity and block size
    stay. *)
Theorem Insert_in_place (pos : N) value v :
  backed v ->
  size_ v < capacity_ v ->
  pos <= size_ v ->
  exists v',
    Insert pos value v = Ok pos v'
    /\ size_ v' = size_ v + 1
    /\ capacity_ v' = capacity_ v
    /\ length (simple_vector_ v') = length (simple_vector_ v)
    /\ contents v'
       = take (N.to_nat pos) (contents v)
         ++ value :: drop (N.to_nat pos) (contents v).
Proof.
  intros [Hsize Hcap Halloc] Hroom Hpos. destruct v as [buf n c].
  simpl in *. pose proof max_alloc_bound as Hbound.
  eexists. split.
  { unfold Insert, bind, get. simpl.
    rewrite assert_passes
      by (apply andb_true_intro; split; apply N.leb_le; lia).
    simpl. rewrite !N.add_0_l, !N.sub_0_r.
    rewrite (proj2 (N.eqb_neq c 0)) by lia.
    rewrite (proj2 (N.ltb_lt n c)) by lia.
    rewrite std_copy_backward_within_spec by lia. simpl.
    rewrite ArrayPtr_store_ok.
    2: { rewrite !length_app, !length_take, !length_drop. lia. }
    simpl. rewrite size_add_small by lia. reflexivity. }
  simpl. split; [reflexivity|]. split; [reflexivity|]. split.
  - rewrite length_insert, !length_app, !length_take, !length_drop. lia.
  - unfold contents. simpl.
    replace (N.to_nat (n + 1)) with (S (N.to_nat n)) by lia.
    replace (N.to_nat (n + 1 - (n - pos))) with (S (N.to_nat pos)) by lia.
    replace (N.to_nat (n - pos)) with (N.to_nat n - N.to_nat pos)%nat by lia.
    apply inserted_live_range. lia.
Qed.

(** X9.  [Insert] into a vector of length 0 and capacity 0, at its only
    position: one slot is allocated and holds the value; length and
    capacity are 1. *)
Theorem Insert_into_empty value v :
  size_ v = 0 ->
  capacity_ v = 0 ->
  1 <= max_alloc ->
  Insert 0 value v = Ok 0 (mkSimpleVector [value] 1 1).
Proof.
  intros Hsize Hcap Halloc. destruct v as [buf n c]. simpl in *. subst n c.
  unfold Insert, bind, get. simpl.
  rewrite assert_passes by reflexivity. simpl.
  now rewrite ArrayPtr_new_ok by exact Halloc.
Qed.

(** X11.  [PopBack]: on a non-empty vector the length drops by one and neither
    the block nor the capacity changes, so the live elements are the old
    ones without the last.  On an empty vector a build with assertions
    stops at the assertion, the vector as it was; a build without them
    completes and leaves the length at [2^64 - 1]. *)
Theorem PopBack_drops_the_last v :
  backed v ->
  (0 < size_ v ->
   PopBack v
   = Ok tt (mkSimpleVector (simple_vector_ v) (size_ v - 1) (capacity_ v))
   /\ contents (mkSimpleVector (simple_vector_ v) (size_ v - 1) (capacity_ v))
      = take (N.to_nat (size_ v) - 1) (contents v))
  /\ (size_ v = 0 ->
      PopBack v
      = if NDEBUG
        then Ok tt (mkSimpleVector (simple_vector_ v) (2 ^ 64 - 1)
                                   (capacity_ v))
        else Fail AssertionFailed v).
Proof.
  intros [Hsize _ Halloc]. destruct v as [buf n c]. simpl in *.
  pose proof max_alloc_bound as Hbound. split.
  - intros Hpos. split.
    + unfold PopBack, bind, get. simpl.
      rewrite assert_passes by (apply negb_true_iff, N.eqb_neq; lia).
      unfold set_size. simpl. now rewrite size_dec_pos by lia.
    + unfold contents. simpl. rewrite take_take.
      f_equal. lia.
  - intros ->. unfold PopBack, bind, get, assert_. simpl.
    now destruct NDEBUG.
Qed.

(** X12.  [Erase] off the live range.  At the end position a build with
    assertions stops at the assertion, the vector as it was, and a build
    without them runs the move loop off the buffer; behind the end position
    the assertion, which compares with the end position only, lets the call
    through in either build, and the move loop runs off the buffer. *)
Theorem Erase_off_the_live_range (pos : N) v :
  (pos = size_ v ->
   Erase pos v = if NDEBUG then UB else Fail AssertionFailed v)
  /\ (size_ v < pos -> Erase pos v = UB).
Proof.
  destruct v as [buf n c]. simpl. split.
  - intros ->. unfold Erase, bind, get, assert_. simpl.
    rewrite N.add_0_l, N.eqb_refl. simpl.
    destruct NDEBUG; simpl; [|reflexivity].
    unfold std_move_within.
    now rewrite (proj2 (N.leb_gt (0 + (n - 0) + 1) n)) by lia.
  - intros Hlt. unfold Erase, bind, get. simpl.
    rewrite assert_passes by (apply negb_true_iff, N.eqb_neq; lia).
    unfold std_move_within.
    now rewrite (proj2 (N.leb_gt (0 + (pos - 0) + 1) (0 + n))) by lia.
Qed.

(** X13.  [Resize] above the capacity, when the new block can be allocated: the
    new block has [max(new_size, 2 * capacity_)] slots; it starts with the
    first [capacity_] slots of the old block, live or not, and holds the
    default value behind them; length and capacity are set to [new_size]
    and to the size of the new block. *)
Theorem Resize_above_capacity (new_size : N) v :
  backed v ->
  size_ v <= capacity_ v ->
  capacity_ v < new_size ->
  N.max new_size (capacity_ v * 2) <= max_alloc ->
  Resize new_size v
  = Ok tt (mkSimpleVector
             (take (N.to_nat (capacity_ v)) (simple_vector_ v)
              ++ replicate
                   (N.to_nat (N.max new_size (capacity_ v * 2) - capacity_ v))
                   default_value)
             new_size (N.max new_size (capacity_ v * 2))).
Proof.
  intros [Hsize Hcap Hlen] Hinv Hlt Halloc. destruct v as [buf n c].
  simpl in *. pose proof max_alloc_bound as Hbound.
  unfold Resize, bind, get. simpl.
  rewrite (proj2 (N.leb_gt new_size n)) by lia. simpl.
  rewrite (proj2 (N.leb_gt new_size c)) by lia. simpl.
  rewrite (proj2 (N.ltb_lt c new_size)) by lia.
  rewrite size_mul_small by lia.
  rewrite ArrayPtr_new_ok by exact Halloc. simpl.
  unfold Fill, bind.
  rewrite assert_passes by (apply N.ltb_lt; lia).
  rewrite std_fill_fresh_block. simpl.
  rewrite N.add_0_l.
  rewrite std_copy_prefix by (rewrite ?length_replicate; lia). simpl.
  rewrite drop_replicate. unfold set_capacity. simpl.
  repeat f_equal; lia.
Qed.

End Mutation.

(** ** Appending in a row *)

Section Appending.

Context {T : Type} {P : Platform T}.
Implicit Types (buf : list T) (v : SimpleVector T) (item : T).

Lemma PushBack_in_place item v :
  backed v ->
  size_ v + 1 <= capacity_ v ->
  PushBack item v
  = Ok tt (mkSimpleVector (<[N.to_nat (size_ v) := item]> (simple_vector_ v))
                          (size_ v + 1) (capacity_ v)).
Proof.
  intros [Hsize Hcap Halloc] Hroom. destruct v as [buf n c]. simpl in *.
  pose proof max_alloc_bound as Hbound.
  unfold PushBack, bind, get. simpl.
  rewrite size_add_small by lia.
  rewrite (proj2 (N.ltb_ge c (n + 1))) by lia. simpl.
  rewrite ArrayPtr_store_ok by lia. simpl.
  now rewrite size_add_small by lia.
Qed.

Lemma PushBack_step item v :
  well_formed v ->
  (capacity_ v < size_ v + 1 ->
   N.max (size_ v + 1) (capacity_ v * 2) <= max_alloc) ->
  exists v',
    PushBack item v = Ok tt v'
    /\ well_formed v'
    /\ contents v' = contents v ++ [item]
    /\ size_ v' = size_ v + 1
    /\ capacity_ v'
       = if capacity_ v <? size_ v + 1
         then N.max (size_ v + 1) (capacity_ v * 2)
         else capacity_ v.
Proof.
  intros [Hinv Hcap Halloc] Hgrow. destruct v as [buf n c]. simpl in *.
  pose proof max_alloc_bound as Hbound.
  destruct (N.ltb_spec c (n + 1)) as [Hlt | Hge].
  - specialize (Hgrow Hlt). set (g := N.max (n + 1) (c * 2)) in *.
    pose proof (grown_buffer_shape buf
                  (replicate (N.to_nat g) default_value) n item) as Hshape.
    rewrite length_replicate in Hshape.
    destruct Hshape as (Hlen & Htake & Hat); [lia | lia |].
    eexists. split.
    { unfold PushBack, bind, get. simpl.
      rewrite size_add_small, size_mul_small by lia. fold g.
      rewrite (proj2 (N.ltb_lt _ _) Hlt).
      rewrite ArrayPtr_new_ok by lia. simpl.
      rewrite std_fill_fresh_block. simpl. rewrite N.add_0_l.
      rewrite std_copy_prefix by (rewrite ?length_replicate; lia). simpl.
      rewrite ArrayPtr_store_ok.
      2: { rewrite length_app, length_take, length_drop, length_replicate.
           lia. }
      simpl. rewrite size_add_small by lia. reflexivity. }
    split; [split; simpl; lia|]. split; [|split; reflexivity].
    unfold contents. simpl.
    replace (N.to_nat (n + 1)) with (S (N.to_nat n)) by lia.
    rewrite (take_S_r _ _ _ Hat). now rewrite Htake.
  - eexists. split.
    { apply PushBack_in_place; [split; simpl; lia | simpl; lia]. }
    simpl. split; [split; simpl; rewrite ?length_insert; lia|].
    split; [|split; reflexivity].
    unfold contents. simpl.
    replace (N.to_nat (n + 1)) with (S (N.to_nat n)) by lia.
    rewrite (take_S_r _ _ item) by (apply list_lookup_insert_eq; lia).
    now rewrite take_insert_ge by lia.
Qed.

(** X16.  A row of [PushBack] calls on a well-formed vector, with room in the
    allocator for twice the final length: every call completes, the live
    elements are the old ones followed by the items in the order of the
    calls, the length has grown by their number, the vector is well-formed
    again, and the capacity has not shrunk and is at most the larger of the
    old capacity and twice the new length. *)
Theorem PushBack_each_appends (items : list T) : forall v,
  well_formed v ->
  N.max (capacity_ v) (2 * (size_ v + N.of_nat (length items))) <= max_alloc ->
  exists v',
    PushBack_each items v = Ok tt v'
    /\ well_formed v'
    /\ contents v' = contents v ++ items
    /\ size_ v' = size_ v + N.of_nat (length items)
    /\ capacity_ v <= capacity_ v'
    /\ capacity_ v' <= N.max (capacity_ v) (2 * size_ v').
Proof.
  induction items as [|item rest IH]; intros v Hwf Hroom.
  - exists v. simpl. rewrite app_nil_r, N.add_0_r.
    repeat split; try apply Hwf; lia.
  - simpl length in *.
    destruct (PushBack_step item v Hwf)
      as (v1 & Hrun & Hwf1 & Hc1 & Hn1 & Hcap1); [lia|].
    assert (Hcap1' : capacity_ v <= capacity_ v1
                     /\ capacity_ v1 <= N.max (capacity_ v) (2 * size_ v1)).
    { rewrite Hcap1, Hn1.
      destruct (N.ltb_spec (capacity_ v) (size_ v + 1)); lia. }
    destruct (IH v1 Hwf1) as (v' & Hrun' & Hwf' & Hc' & Hn' & Hle' & Hub');
      [lia|].
    exists v'. split.
    { simpl. unfold bind. now rewrite Hrun. }
    split; [exact Hwf'|]. split.
    { now rewrite Hc', Hc1, <- app_assoc. }
    repeat split; lia.
Qed.

(** X17.  A row of [PushBack] calls that fits the capacity: the items are
    written into the slots behind the live elements of the block the vector
    already owns, and the capacity stays. *)
Theorem PushBack_each_within_capacity (items : list T) : forall v,
  backed v ->
  size_ v + N.of_nat (length items) <= capacity_ v ->
  PushBack_each items v
  = Ok tt (mkSimpleVector
             (take (N.to_nat (size_ v)) (simple_vector_ v) ++ items
              ++ drop (N.to_nat (size_ v) + length items) (simple_vector_ v))
             (size_ v + N.of_nat (length items)) (capacity_ v)).
Proof.
  induction items as [|item rest IH]; intros v Hb Hroom.
  - destruct v as [buf n c]. simpl.
    now rewrite Nat.add_0_r, take_drop, N.add_0_r.
  - simpl length in *. simpl. unfold bind.
    rewrite PushBack_in_place by (try exact Hb; lia).
    destruct Hb as [Hsize Hcap Halloc]. destruct v as [buf n c]. simpl in *.
    rewrite IH; simpl.
    2: { split; simpl; rewrite ?length_insert; lia. }
    2: { lia. }
    replace (N.to_nat (n + 1)) with (S (N.to_nat n)) by lia.
    rewrite (take_S_r _ _ item) by (apply list_lookup_insert_eq; lia).
    rewrite take_insert_ge, drop_insert_lt by lia.
    rewrite <- app_assoc. simpl.
    replace (n + 1 + N.of_nat (length rest))
      with (n + N.of_nat (S (length rest))) by lia.
    replace (S (N.to_nat n + length rest))
      with (N.to_nat n + S (length rest))%nat by lia.
    reflexivity.
Qed.

End Appending.

(** ** Comparisons *)

Section Comparisons.

Context {T : Type} {P : Platform T}.
Variable Type_lt : T -> T -> bool.
Implicit Types (lhs rhs v : SimpleVector T) (xs ys : list T).

Lemma operator_lt_contents lhs rhs :
  size_ lhs <= N.of_nat (length (simple_vector_ lhs)) ->
  size_ rhs <= N.of_nat (length (simple_vector_ rhs)) ->
  operator_lt Type_lt lhs rhs
  = Some (lexicographic_lt Type_lt (contents lhs) (contents rhs)).
Proof.
  intros Hl Hr. unfold operator_lt, std_lexicographical_compare, contents.
  rewrite !N.add_0_l, !N.sub_0_r.
  rewrite (proj2 (N.leb_le 0 (size_ lhs))), (proj2 (N.leb_le 0 (size_ rhs)))
    by lia.
  simpl.
  rewrite (lexicographical_compare_loop_spec Type_lt) by (simpl; lia).
  reflexivity.
Qed.

Lemma lexicographic_lt_irrefl xs :
  (forall x, Type_lt x x = false) -> lexicographic_lt Type_lt xs xs = false.
Proof.
  intros Hirr. induction xs as [|x xs IH]; [reflexivity|].
  simpl. now rewrite Hirr.
Qed.

Lemma lexicographic_lt_proper_prefix xs y ys :
  (forall x, Type_lt x x = false) ->
  lexicographic_lt Type_lt xs (xs ++ y :: ys) = true.
Proof.
  intros Hirr. induction xs as [|x xs IH]; [reflexivity|].
  simpl. now rewrite Hirr.
Qed.

(** X18.  [operator<] on two vectors whose live elements fit their buffers is
    the lexicographic order of the live elements by [operator<] of the
    elements; [>], [<=] and [>=] are that order with the operands
    exchanged, negated, or both. *)
Theorem operator_lt_is_lexicographic lhs rhs :
  size_ lhs <= N.of_nat (length (simple_vector_ lhs)) ->
  size_ rhs <= N.of_nat (length (simple_vector_ rhs)) ->
  operator_lt Type_lt lhs rhs
  = Some (lexicographic_lt Type_lt (contents lhs) (contents rhs))
  /\ operator_gt Type_lt lhs rhs
     = Some (lexicographic_lt Type_lt (contents rhs) (contents lhs))
  /\ operator_le Type_lt lhs rhs
     = Some (negb (lexicographic_lt Type_lt (contents rhs) (contents lhs)))
  /\ operator_ge Type_lt lhs rhs
     = Some (negb (lexicographic_lt Type_lt (contents lhs) (contents rhs))).
Proof.
  intros Hl Hr. unfold operator_gt, operator_le, operator_ge.
  rewrite !operator_lt_contents by assumption. repeat split.
Qed.

(** X19.  A vector compared with itself, for an irreflexive [operator<] of the
    elements: [<] and [>] are false, [<=] and [>=] are true. *)
Theorem ordering_is_irreflexive v :
  (forall x, Type_lt x x = false) ->
  size_ v <= N.of_nat (length (simple_vector_ v)) ->
  operator_lt Type_lt v v = Some false
  /\ operator_gt Type_lt v v = Some false
  /\ operator_le Type_lt v v = Some true
  /\ operator_ge Type_lt v v = Some true.
Proof.
  intros Hirr Hv. unfold operator_gt, operator_le, operator_ge.
  rewrite !operator_lt_contents by assumption.
  rewrite lexicographic_lt_irrefl by exact Hirr. repeat split.
Qed.

(** X20.  A vector whose live elements are a proper prefix of those of another
    one is both equal to it by [operator==] and less than it by
    [operator<]. *)
Theorem proper_prefix_is_equal_and_less lhs rhs :
  (forall x, Type_eq x x = true) ->
  (forall x, Type_lt x x = false) ->
  size_ lhs <= N.of_nat (length (simple_vector_ lhs)) ->
  size_ rhs <= N.of_nat (length (simple_vector_ rhs)) ->
  size_ lhs < size_ rhs ->
  take (N.to_nat (size_ lhs)) (contents rhs) = contents lhs ->
  operator_eq lhs rhs = Some true
  /\ operator_ne lhs rhs = Some false
  /\ operator_lt Type_lt lhs rhs = Some true
  /\ operator_le Type_lt rhs lhs = Some false.
Proof.
  intros Hrefl Hirr Hl Hr Hlt Hprefix.
  assert (Heq : operator_eq lhs rhs = Some true).
  { apply operator_eq_accepts_prefix; try assumption; [lia|].
    rewrite <- Hprefix. unfold contents.
    rewrite take_take. f_equal. lia. }
  assert (Hless : operator_lt Type_lt lhs rhs = Some true).
  { rewrite operator_lt_contents by assumption. f_equal.
    destruct (drop (N.to_nat (size_ lhs)) (contents rhs)) as [|y ys] eqn:Hrest.
    - apply (f_equal length) in Hrest. unfold contents in Hrest.
      rewrite length_drop, length_take in Hrest. simpl in Hrest. lia.
    - rewrite <- (take_drop (N.to_nat (size_ lhs)) (contents rhs)).
      rewrite Hprefix, Hrest.
      now apply lexicographic_lt_proper_prefix. }
  unfold operator_ne, operator_le. rewrite Heq, Hless. repeat split.
Qed.

(** X21.  [operator==] on two vectors of one length whose live elements fit
    their buffers, for an [operator==] of the elements that decides
    equality: the result is [true] exactly when the live elements are the
    same, and [operator!=] is its negation. *)
Theorem operator_eq_decides_equal_lengths lhs rhs :
  (forall x y, Type_eq x y = true <-> x = y) ->
  size_ lhs = size_ rhs ->
  size_ lhs <= N.of_nat (length (simple_vector_ lhs)) ->
  size_ rhs <= N.of_nat (length (simple_vector_ rhs)) ->
  exists r,
    operator_eq lhs rhs = Some r
    /\ operator_ne lhs rhs = Some (negb r)
    /\ (r = true <-> contents lhs = contents rhs).
Proof.
  intros Hdec Hlen Hl Hr.
  unfold operator_ne, operator_eq, std_equal, contents.
  rewrite (proj2 (N.leb_le 0 (0 + size_ lhs))) by lia.
  rewrite N.add_0_l, N.sub_0_r. rewrite <- Hlen.
  destruct (equal_loop_decides (N.to_nat (size_ lhs))
              (simple_vector_ lhs) 0 (simple_vector_ rhs) 0 Hdec)
    as (r & Hrun & Hiff); [simpl; lia | simpl; lia |].
  exists r. change (N.to_nat 0) with 0%nat. simpl in Hiff.
  rewrite Hrun. repeat split; apply Hiff.
Qed.

End Comparisons.

(** ** The representation invariant *)

Section Invariant.

Context {T : Type} {P : Platform T}.
Implicit Types (buf src dst : list T) (v : SimpleVector T).

Lemma copy_backward_loop_Some (n : nat) : forall src last dst d_last r,
  copy_backward_loop n src last dst d_last = Some r ->
  length r = length dst /\ ((0 < n)%nat -> (d_last <= length dst)%nat).
Proof.
  induction n as [|n IH]; intros src last dst d_last r; simpl.
  - intros [= <-]. split; [reflexivity | lia].
  - destruct last as [|last]; [discriminate|].
    destruct d_last as [|d_last]; [discriminate|].
    destruct (src !! last); [|discriminate].
    destruct (dst !! d_last) eqn:Hslot; [|discriminate].
    intros H. apply IH in H as [Hlen _]. rewrite length_insert in Hlen.
    apply lookup_lt_Some in Hslot. split; [exact Hlen | lia].
Qed.

Lemma std_copy_backward_Some src (first last : N) dst (d_last : N) r :
  std_copy_backward src first last dst d_last = Some r ->
  first <= last
  /\ length r = length dst
  /\ (first < last -> d_last <= N.of_nat (length dst)).
Proof.
  unfold std_copy_backward. destruct (N.leb_spec first last); [|discriminate].
  intros Hrun. apply copy_backward_loop_Some in Hrun as [Hlen Hroom].
  split; [assumption|]. split; [assumption|]. intros Hlt.
  assert (N.to_nat d_last <= length dst)%nat by (apply Hroom; lia). lia.
Qed.

Lemma std_move_within_Some buf (first last d_first : N) r :
  std_move_within buf first last d_first = Some r ->
  first <= last /\ length r = length buf.
Proof.
  intros Hrun. split; [|now apply std_move_within_length in Hrun].
  unfold std_move_within in Hrun.
  now destruct (N.leb_spec first last); [|discriminate].
Qed.

Lemma std_copy_backward_within_Some buf (first last d_last : N) r :
  std_copy_backward_within buf first last d_last = Some r ->
  first <= last /\ length r = length buf.
Proof.
  intros Hrun. split; [|now apply std_copy_backward_within_length in Hrun].
  unfold std_copy_backward_within in Hrun.
  now destruct (N.leb_spec first last); [|discriminate].
Qed.

(** Splits a completed run into the steps it took, and keeps of each step
    what it says about sizes. *)
Ltac run_steps H :=
  cbv beta iota delta
    [bind get put ret lift_ub throw undefined assert_ Fill ArrayPtr_new
     set_buffer set_size set_capacity simple_vector_ size_ capacity_] in H.

Ltac run_cases H :=
  repeat match type of H with
    | context [if ?b then _ else _] => destruct b eqn:?; run_steps H
    | context [match ?o with Some _ => _ | None => _ end] =>
        destruct o eqn:?; run_steps H
    end;
  try discriminate H.

Ltac size_facts :=
  repeat match goal with
    | H : std_fill _ _ _ _ = Some _ |- _ => apply std_fill_length in H
    | H : std_copy _ _ _ _ _ = Some _ |- _ => apply std_copy_length in H
    | H : std_move_within _ _ _ _ = Some _ |- _ =>
        apply std_move_within_Some in H as [? ?]
    | H : std_copy_backward_within _ _ _ _ = Some _ |- _ =>
        apply std_copy_backward_within_Some in H as [? ?]
    | H : std_copy_backward _ _ _ _ _ = Some _ |- _ =>
        apply std_copy_backward_Some in H as (? & ? & ?)
    | H : ArrayPtr_store _ _ _ = Some _ |- _ =>
        apply ArrayPtr_store_length in H as [? ?]
    | H : (_ <=? _) = true |- _ => apply N.leb_le in H
    | H : (_ <=? _) = false |- _ => apply N.leb_gt in H
    | H : (_ <? _) = true |- _ => apply N.ltb_lt in H
    | H : (_ <? _) = false |- _ => apply N.ltb_ge in H
    | H : (_ =? _) = true |- _ => apply N.eqb_eq in H
    | H : (_ =? _) = false |- _ => apply N.eqb_neq in H
    | H : (_ || _) = _ |- _ => clear H
    | H : NDEBUG = _ |- _ => clear H
    | H : context [length (replicate _ _)] |- _ =>
        rewrite length_replicate in H
    end.

Lemma Resize_keeps_well_formed (new_size : N) v v' :
  well_formed v -> Resize new_size v = Ok tt v' -> well_formed v'.
Proof.
  intros [Hinv Hcap Halloc] Hrun. destruct v as [buf n c]. simpl in *.
  pose proof max_alloc_bound as Hbound.
  unfold Resize in Hrun. run_steps Hrun.
  rewrite ?(size_mul_small c 2) in Hrun by lia.
  run_cases Hrun; injection Hrun as <-; size_facts;
    split; simpl; lia.
Qed.

Lemma PushBack_keeps_well_formed (item : T) v v' :
  well_formed v -> PushBack item v = Ok tt v' -> well_formed v'.
Proof.
  intros [Hinv Hcap Halloc] Hrun. destruct v as [buf n c]. simpl in *.
  pose proof max_alloc_bound as Hbound.
  unfold PushBack in Hrun. run_steps Hrun.
  rewrite ?(size_mul_small c 2), ?(size_add_small n 1) in Hrun by lia.
  run_cases Hrun; injection Hrun as <-; size_facts;
    rewrite ?(size_add_small n 1) by lia; split; simpl; lia.
Qed.

Lemma PushBack_move_keeps_well_formed (item : T) v v' :
  well_formed v -> PushBack_move item v = Ok tt v' -> well_formed v'.
Proof.
  intros [Hinv Hcap Halloc] Hrun. destruct v as [buf n c]. simpl in *.
  pose proof max_alloc_bound as Hbound.
  unfold PushBack_move in Hrun. run_steps Hrun.
  rewrite ?(size_mul_small c 2), ?(size_add_small n 1) in Hrun by lia.
  run_cases Hrun; injection Hrun as <-; size_facts;
    rewrite ?(size_add_small n 1) by lia; split; simpl; lia.
Qed.

Lemma Insert_keeps_well_formed (pos : N) (value : T) v r v' :
  well_formed v -> Insert pos value v = Ok r v' -> well_formed v'.
Proof.
  intros [Hinv Hcap Halloc] Hrun. destruct v as [buf n c]. simpl in *.
  pose proof max_alloc_bound as Hbound.
  unfold Insert in Hrun. run_steps Hrun.
  rewrite ?(size_mul_small c 2), ?(size_add_small n 1),
    ?(size_add_small c 1) in Hrun by lia.
  run_cases Hrun; injection Hrun as <- <-; size_facts;
    rewrite ?(size_add_small n 1) by lia;
    try (split; simpl; lia).
  all: exfalso; simpl in *; lia.
Qed.

Lemma PopBack_keeps_well_formed v v' :
  well_formed v -> size_ v <> 0 -> PopBack v = Ok tt v' -> well_formed v'.
Proof.
  intros [Hinv Hcap Halloc] Hpos Hrun. destruct v as [buf n c]. simpl in *.
  pose proof max_alloc_bound as Hbound.
  unfold PopBack in Hrun. run_steps Hrun.
  rewrite (size_dec_pos n) in Hrun by lia.
  run_cases Hrun; injection Hrun as <-; split; simpl; lia.
Qed.

Lemma Erase_keeps_well_formed (pos : N) v r v' :
  well_formed v -> Erase pos v = Ok r v' -> well_formed v'.
Proof.
  intros [Hinv Hcap Halloc] Hrun. destruct v as [buf n c]. simpl in *.
  pose proof max_alloc_bound as Hbound.
  unfold Erase in Hrun. run_steps Hrun.
  run_cases Hrun; injection Hrun as <- <-; size_facts;
    rewrite size_dec_pos by lia; split; simpl; lia.
Qed.

Lemma Reserve_keeps_well_formed (new_capacity : N) v v' :
  well_formed v -> Reserve new_capacity v = Ok tt v' -> well_formed v'.
Proof.
  intros [Hinv Hcap Halloc] Hrun. destruct v as [buf n c]. simpl in *.
  unfold Reserve in Hrun. run_steps Hrun.
  run_cases Hrun; injection Hrun as <-; size_facts;
    split; simpl; lia.
Qed.

(** X22.  Every member function that completes on a well-formed vector leaves a
    well-formed vector: the length within the capacity, the capacity the
    size of the owned block, the block within what can be allocated.  The
    one call this needs a precondition for is [PopBack], which must not be
    made on an empty vector. *)
Theorem member_calls_keep_well_formed (c : MemberCall) v r v' :
  well_formed v ->
  (c = CallPopBack -> size_ v <> 0) ->
  invoke c v = Ok r v' ->
  well_formed v'.
Proof.
  intros Hwf Hpop Hrun. destruct c; simpl in Hrun; unfold bind in Hrun.
  - unfold operator_index in Hrun. run_steps Hrun. run_cases Hrun.
    now injection Hrun as _ <-.
  - unfold At in Hrun. run_steps Hrun. run_cases Hrun.
    now injection Hrun as _ <-.
  - now injection Hrun as _ <-.
  - now injection Hrun as _ <-.
  - now injection Hrun as _ <-.
  - now injection Hrun as _ <-.
  - now injection Hrun as _ <-.
  - injection Hrun as _ <-. destruct Hwf. split; simpl; lia.
  - destruct (Resize new_size v) as [[] s | |] eqn:Hop; try discriminate.
    injection Hrun as _ <-. eapply Resize_keeps_well_formed; eassumption.
  - destruct (PushBack item v) as [[] s | |] eqn:Hop; try discriminate.
    injection Hrun as _ <-. eapply PushBack_keeps_well_formed; eassumption.
  - destruct (PushBack_move item v) as [[] s | |] eqn:Hop; try discriminate.
    injection Hrun as _ <-.
    eapply PushBack_move_keeps_well_formed; eassumption.
  - destruct (Insert pos value v) as [it s | |] eqn:Hop; try discriminate.
    injection Hrun as _ <-. eapply Insert_keeps_well_formed; eassumption.
  - destruct (PopBack v) as [[] s | |] eqn:Hop; try discriminate.
    injection Hrun as _ <-.
    eapply PopBack_keeps_well_formed; [eassumption | now apply Hpop |
                                         eassumption].
  - destruct (Erase pos v) as [it s | |] eqn:Hop; try discriminate.
    injection Hrun as _ <-. eapply Erase_keeps_well_formed; eassumption.
  - destruct (Reserve new_capacity v) as [[] s | |] eqn:Hop;
      try discriminate.
    injection Hrun as _ <-. eapply Reserve_keeps_well_formed; eassumption.
Qed.

(** X23.  Every constructor but the copy constructor, when it completes, has
    built a well-formed vector. *)
Theorem constructors_build_well_formed (c : CtorCall) v :
  (forall other, c <> NewCopy other) ->
  construct (ctor_of c) = Ok tt v ->
  well_formed v.
Proof.
  intros Hc Hrun. unfold construct in Hrun.
  destruct c; simpl in Hrun;
    [ unfold ctor_default in Hrun
    | unfold ctor_sized, ctor_fill in Hrun
    | unfold ctor_fill in Hrun
    | unfold ctor_list in Hrun
    | now destruct (Hc other)
    | unfold ctor_reserve, Reserve in Hrun ];
    unfold blank in Hrun; run_steps Hrun; run_cases Hrun;
    injection Hrun as <-; size_facts; split; simpl; lia.
Qed.

End Invariant.

(** ** [SimpleVector<int>]: the properties above on concrete vectors *)

Section IntVectorMore.

Import IntVector.
#[local] Existing Instance debug_build.

Lemma well_formed_v123 : well_formed v123.
Proof. split; vm_compute; (reflexivity || discriminate). Qed.

Lemma backed_pushed123 : backed pushed123.
Proof. split; vm_compute; discriminate. Qed.

Lemma backed_reserved10 : backed reserved10.
Proof. split; vm_compute; discriminate. Qed.

(** [SimpleVector<int>(3, 7)], and the same where two elements can be
    allocated at most. *)
Lemma ctor_fill_builds_witness :
  3 <= max_alloc
  /\ construct (ctor_fill 3 7%Z) = Ok tt (mkSimpleVector [7; 7; 7]%Z 3 3)
  /\ max_alloc (Platform := small_heap) < 3
  /\ construct (ctor_fill (P := small_heap) 3 7%Z) = Fail AllocFailure blank.
Proof.
  assert (H1 : 3 <= max_alloc) by (vm_compute; discriminate).
  assert (H2 : max_alloc (Platform := small_heap) < 3) by reflexivity.
  split; [exact H1|]. split.
  - exact (proj1 (proj1 (ctor_fill_builds 3 7%Z) H1)).
  - split; [exact H2|].
    exact (proj1 (proj2 (ctor_fill_builds (P := small_heap) 3 7%Z) H2)).
Defined.

Lemma ctor_list_builds_witness :
  N.of_nat (length [1; 2; 3]%Z) <= max_alloc
  /\ construct (ctor_list [1; 2; 3]%Z) = Ok tt v123
  /\ contents v123 = [1; 2; 3]%Z.
Proof.
  assert (H1 : N.of_nat (length [1; 2; 3]%Z) <= max_alloc)
    by (vm_compute; discriminate).
  split; [exact H1|]. exact (ctor_list_builds [1; 2; 3]%Z H1).
Defined.

Lemma ctor_reserve_builds_witness :
  10 <= max_alloc
  /\ construct (ctor_reserve (ReserveFunc_GetCapacity (Reserve_request 10)))
     = Ok tt reserved10.
Proof.
  assert (H1 : 10 <= max_alloc) by (vm_compute; discriminate).
  split; [exact H1|]. exact (ctor_reserve_builds 10 H1).
Defined.

(** [Reserve(5)] and [Reserve(2)] on [{1, 2, 3}]. *)
Lemma Reserve_grows_or_keeps_witness :
  size_ v123 <= capacity_ v123
  /\ size_ v123 <= N.of_nat (length (simple_vector_ v123))
  /\ Reserve 5 v123 = Ok tt (mkSimpleVector [1; 2; 3; 0; 0]%Z 3 5)
  /\ Reserve 2 v123 = Ok tt v123.
Proof.
  assert (H1 : size_ v123 <= capacity_ v123) by (vm_compute; discriminate).
  assert (H2 : size_ v123 <= N.of_nat (length (simple_vector_ v123)))
    by (vm_compute; discriminate).
  assert (H3 : capacity_ v123 < 5) by reflexivity.
  assert (H4 : 5 <= max_alloc) by (vm_compute; discriminate).
  assert (H5 : 2 <= capacity_ v123) by (vm_compute; discriminate).
  split; [exact H1|]. split; [exact H2|]. split.
  - exact (proj1 (Reserve_grows_or_keeps 5 v123 H1 H2) H3 H4).
  - exact (proj2 (proj2 (Reserve_grows_or_keeps 2 v123 H1 H2)) H5).
Defined.

(** The copy of [{1, 2, 3}]. *)
Lemma ctor_copy_copies_witness :
  size_ v123 <= capacity_ v123
  /\ capacity_ v123 <= max_alloc
  /\ exists copy,
       construct (ctor_copy v123) = Ok tt copy
       /\ size_ copy = 3
       /\ contents copy = [1; 2; 3]%Z
       /\ operator_eq copy v123 = Some true
       /\ operator_eq v123 copy = Some true.
Proof.
  assert (H1 : size_ v123 <= capacity_ v123) by (vm_compute; discriminate).
  assert (H2 : size_ v123 <= N.of_nat (length (simple_vector_ v123)))
    by (vm_compute; discriminate).
  assert (H3 : capacity_ v123 <= max_alloc) by (vm_compute; discriminate).
  split; [exact H1|]. split; [exact H3|].
  exact (ctor_copy_copies v123 H1 H2 H3 Z.eqb_refl).
Defined.

(** The copy of the copy of [{1, 2, 3}]. *)
Lemma copy_of_a_copy_is_undefined_witness :
  0 < size_ v123
  /\ construct (ctor_copy v123) = Ok tt (mkSimpleVector [1; 2; 3]%Z 3 0)
  /\ construct (ctor_copy (mkSimpleVector [1; 2; 3]%Z 3 0)) = UB.
Proof.
  assert (H1 : 0 < size_ v123) by reflexivity.
  assert (H2 : construct (ctor_copy v123)
               = Ok tt (mkSimpleVector [1; 2; 3]%Z 3 0)) by reflexivity.
  split; [exact H1|]. split; [exact H2|].
  exact (copy_of_a_copy_is_undefined v123 _ H1 H2).
Defined.

(** [a = b] for [a] the vector [{1, 2}] and [b] the vector [{1, 2, 3}]. *)
Lemma operator_assign_copies_witness :
  0%nat <> 1%nat
  /\ exists objects' assigned,
       operator_assign 0 1 [v12; v123] = Ok tt objects'
       /\ objects' !! 1%nat = Some v123
       /\ objects' !! 0%nat = Some assigned
       /\ size_ assigned = 3
       /\ contents assigned = [1; 2; 3]%Z
       /\ operator_eq assigned v123 = Some true
       /\ capacity_ assigned = 0.
Proof.
  assert (H0 : 0%nat <> 1%nat) by discriminate.
  assert (H1 : size_ v123 <= capacity_ v123) by (vm_compute; discriminate).
  assert (H2 : size_ v123 <= N.of_nat (length (simple_vector_ v123)))
    by (vm_compute; discriminate).
  assert (H3 : capacity_ v123 <= max_alloc) by (vm_compute; discriminate).
  split; [exact H0|].
  exact (operator_assign_copies 0 1 [v12; v123] v12 v123 H0 eq_refl eq_refl
           H1 H2 H3 Z.eqb_refl).
Defined.

(** [Insert] of 99 at position 1 of a vector with the live elements
    1, 2, 3 and capacity 4. *)
Lemma Insert_in_place_witness :
  backed pushed123
  /\ size_ pushed123 < capacity_ pushed123
  /\ 1 <= size_ pushed123
  /\ exists v',
       Insert 1 99%Z pushed123 = Ok 1 v'
       /\ size_ v' = 4
       /\ capacity_ v' = 4
       /\ length (simple_vector_ v') = 4%nat
       /\ contents v' = [1; 99; 2; 3]%Z.
Proof.
  assert (H1 : size_ pushed123 < capacity_ pushed123) by reflexivity.
  assert (H2 : 1 <= size_ pushed123) by (vm_compute; discriminate).
  split; [exact backed_pushed123|]. split; [exact H1|]. split; [exact H2|].
  exact (Insert_in_place 1 99%Z pushed123 backed_pushed123 H1 H2).
Defined.

Lemma Insert_into_empty_witness :
  size_ (blank (T := Z)) = 0
  /\ capacity_ (blank (T := Z)) = 0
  /\ 1 <= max_alloc
  /\ Insert 0 5%Z blank = Ok 0 (mkSimpleVector [5]%Z 1 1).
Proof.
  assert (H1 : 1 <= max_alloc) by (vm_compute; discriminate).
  split; [reflexivity|]. split; [reflexivity|]. split; [exact H1|].
  exact (Insert_into_empty 5%Z blank eq_refl eq_refl H1).
Defined.

(** [PopBack] on [{1, 2, 3}], and on an empty vector without assertions. *)
Lemma PopBack_drops_the_last_witness :
  backed v123
  /\ 0 < size_ v123
  /\ PopBack v123 = Ok tt (mkSimpleVector [1; 2; 3]%Z 2 3)
  /\ contents (mkSimpleVector [1; 2; 3]%Z 2 3) = [1; 2]%Z
  /\ PopBack (P := release_build) blank
     = Ok tt (mkSimpleVector [] 18446744073709551615 0).
Proof.
  assert (H1 : 0 < size_ v123) by reflexivity.
  assert (H2 : backed (P := release_build) blank)
    by (split; vm_compute; discriminate).
  split; [exact backed_v123|]. split; [exact H1|].
  split; [|split].
  - exact (proj1 (proj1 (PopBack_drops_the_last v123 backed_v123) H1)).
  - exact (proj2 (proj1 (PopBack_drops_the_last v123 backed_v123) H1)).
  - exact (proj2 (PopBack_drops_the_last (P := release_build) blank H2)
             eq_refl).
Defined.

(** [Erase] at and behind the end position of [{1, 2, 3}]. *)
Lemma Erase_off_the_live_range_witness :
  3 = size_ v123
  /\ Erase 3 v123 = Fail AssertionFailed v123
  /\ Erase (P := release_build) 3 v123 = UB
  /\ size_ v123 < 4
  /\ Erase 4 v123 = UB.
Proof.
  assert (H1 : 3 = size_ v123) by reflexivity.
  assert (H2 : size_ v123 < 4) by reflexivity.
  split; [exact H1|]. split; [|split; [|split; [exact H2|]]].
  - exact (proj1 (Erase_off_the_live_range 3 v123) H1).
  - exact (proj1 (Erase_off_the_live_range (P := release_build) 3 v123) H1).
  - exact (proj2 (Erase_off_the_live_range 4 v123) H2).
Defined.

(** [Resize(7)] on [{1, 2, 3}], and on the same after a [PopBack]: the
    popped 3 is live again. *)
Lemma Resize_above_capacity_witness :
  backed v123
  /\ capacity_ v123 < 7
  /\ Resize 7 v123 = Ok tt (mkSimpleVector [1; 2; 3; 0; 0; 0; 0]%Z 7 7)
  /\ Resize 7 (mkSimpleVector [1; 2; 3]%Z 2 3)
     = Ok tt (mkSimpleVector [1; 2; 3; 0; 0; 0; 0]%Z 7 7).
Proof.
  assert (H1 : size_ v123 <= capacity_ v123) by (vm_compute; discriminate).
  assert (H2 : capacity_ v123 < 7) by reflexivity.
  assert (H3 : N.max 7 (capacity_ v123 * 2) <= max_alloc)
    by (vm_compute; discriminate).
  assert (H4 : backed (mkSimpleVector [1; 2; 3]%Z 2 3))
    by (split; vm_compute; discriminate).
  assert (H5 : size_ (mkSimpleVector [1; 2; 3]%Z 2 3)
               <= capacity_ (mkSimpleVector [1; 2; 3]%Z 2 3))
    by (vm_compute; discriminate).
  split; [exact backed_v123|]. split; [exact H2|]. split.
  - exact (Resize_above_capacity 7 v123 backed_v123 H1 H2 H3).
  - exact (Resize_above_capacity 7 (mkSimpleVector [1; 2; 3]%Z 2 3)
             H4 H5 H2 H3).
Defined.

(** Three [PushBack]s on an empty vector. *)
Lemma PushBack_each_appends_witness :
  well_formed (blank (T := Z))
  /\ exists v',
       PushBack_each [1; 2; 3]%Z blank = Ok tt v'
       /\ well_formed v'
       /\ contents v' = [1; 2; 3]%Z
       /\ size_ v' = 3
       /\ 0 <= capacity_ v'
       /\ capacity_ v' <= N.max 0 (2 * size_ v').
Proof.
  assert (H1 : well_formed (blank (T := Z)))
    by (split; vm_compute; (reflexivity || discriminate)).
  assert (H2 : N.max (capacity_ (blank (T := Z)))
                     (2 * (size_ (blank (T := Z))
                           + N.of_nat (length [1; 2; 3]%Z)))
               <= max_alloc) by (vm_compute; discriminate).
  split; [exact H1|].
  exact (PushBack_each_appends [1; 2; 3]%Z blank H1 H2).
Defined.

(** Three [PushBack]s on a vector of length 0 and capacity 10. *)
Lemma PushBack_each_within_capacity_witness :
  backed reserved10
  /\ size_ reserved10 + N.of_nat (length [1; 2; 3]%Z) <= capacity_ reserved10
  /\ PushBack_each [1; 2; 3]%Z reserved10
     = Ok tt (mkSimpleVector [1; 2; 3; 0; 0; 0; 0; 0; 0; 0]%Z 3 10).
Proof.
  assert (H1 : size_ reserved10 + N.of_nat (length [1; 2; 3]%Z)
               <= capacity_ reserved10) by (vm_compute; discriminate).
  split; [exact backed_reserved10|]. split; [exact H1|].
  exact (PushBack_each_within_capacity [1; 2; 3]%Z reserved10
           backed_reserved10 H1).
Defined.

(** [{1, 2}] against [{1, 2, 3}] by the four ordering operators. *)
Lemma operator_lt_is_lexicographic_witness :
  size_ v12 <= N.of_nat (length (simple_vector_ v12))
  /\ size_ v123 <= N.of_nat (length (simple_vector_ v123))
  /\ operator_lt Z.ltb v12 v123 = Some true
  /\ operator_gt Z.ltb v12 v123 = Some false
  /\ operator_le Z.ltb v12 v123 = Some true
  /\ operator_ge Z.ltb v12 v123 = Some false.
Proof.
  assert (H1 : size_ v12 <= N.of_nat (length (simple_vector_ v12)))
    by (vm_compute; discriminate).
  assert (H2 : size_ v123 <= N.of_nat (length (simple_vector_ v123)))
    by (vm_compute; discriminate).
  split; [exact H1|]. split; [exact H2|].
  exact (operator_lt_is_lexicographic Z.ltb v12 v123 H1 H2).
Defined.

Lemma ordering_is_irreflexive_witness :
  (forall x, Z.ltb x x = false)
  /\ size_ v123 <= N.of_nat (length (simple_vector_ v123))
  /\ operator_lt Z.ltb v123 v123 = Some false
  /\ operator_gt Z.ltb v123 v123 = Some false
  /\ operator_le Z.ltb v123 v123 = Some true
  /\ operator_ge Z.ltb v123 v123 = Some true.
Proof.
  assert (H2 : size_ v123 <= N.of_nat (length (simple_vector_ v123)))
    by (vm_compute; discriminate).
  split; [exact Z.ltb_irrefl|]. split; [exact H2|].
  exact (ordering_is_irreflexive Z.ltb v123 Z.ltb_irrefl H2).
Defined.

Lemma proper_prefix_is_equal_and_less_witness :
  size_ v12 < size_ v123
  /\ take (N.to_nat (size_ v12)) (contents v123) = contents v12
  /\ operator_eq v12 v123 = Some true
  /\ operator_ne v12 v123 = Some false
  /\ operator_lt Z.ltb v12 v123 = Some true
  /\ operator_le Z.ltb v123 v12 = Some false.
Proof.
  assert (H1 : size_ v12 <= N.of_nat (length (simple_vector_ v12)))
    by (vm_compute; discriminate).
  assert (H2 : size_ v123 <= N.of_nat (length (simple_vector_ v123)))
    by (vm_compute; discriminate).
  assert (H3 : size_ v12 < size_ v123) by reflexivity.
  assert (H4 : take (N.to_nat (size_ v12)) (contents v123) = contents v12)
    by reflexivity.
  split; [exact H3|]. split; [exact H4|].
  exact (proper_prefix_is_equal_and_less Z.ltb v12 v123
           Z.eqb_refl Z.ltb_irrefl H1 H2 H3 H4).
Defined.

Lemma operator_eq_decides_equal_lengths_witness :
  (forall x y, Z.eqb x y = true <-> x = y)
  /\ size_ v123 = size_ (mkSimpleVector [1; 2; 4]%Z 3 3)
  /\ exists r,
       operator_eq v123 (mkSimpleVector [1; 2; 4]%Z 3 3) = Some r
       /\ operator_ne v123 (mkSimpleVector [1; 2; 4]%Z 3 3) = Some (negb r)
       /\ (r = true <-> [1; 2; 3]%Z = [1; 2; 4]%Z).
Proof.
  assert (H1 : size_ v123 <= N.of_nat (length (simple_vector_ v123)))
    by (vm_compute; discriminate).
  split; [exact Z.eqb_eq|]. split; [reflexivity|].
  exact (operator_eq_decides_equal_lengths v123
           (mkSimpleVector [1; 2; 4]%Z 3 3) Z.eqb_eq eq_refl H1 H1).
Defined.

(** [PushBack(9)] on [{1, 2, 3}], as one call of the interface. *)
Lemma member_calls_keep_well_formed_witness :
  well_formed v123
  /\ invoke (CallPushBack 9%Z) v123
     = Ok VVoid (mkSimpleVector [1; 2; 3; 9; 0; 0]%Z 4 6)
  /\ well_formed (mkSimpleVector [1; 2; 3; 9; 0; 0]%Z 4 6).
Proof.
  assert (H1 : CallPushBack 9%Z = CallPopBack -> size_ v123 <> 0)
    by discriminate.
  assert (H2 : invoke (CallPushBack 9%Z) v123
               = Ok VVoid (mkSimpleVector [1; 2; 3; 9; 0; 0]%Z 4 6))
    by reflexivity.
  split; [exact well_formed_v123|]. split; [exact H2|].
  exact (member_calls_keep_well_formed (CallPushBack 9%Z) v123 _ _
           well_formed_v123 H1 H2).
Defined.

Lemma constructors_build_well_formed_witness :
  (forall other, NewList [1; 2; 3]%Z <> NewCopy other)
  /\ construct (ctor_of (NewList [1; 2; 3]%Z)) = Ok tt v123
  /\ well_formed v123.
Proof.
  assert (H1 : forall other, NewList [1; 2; 3]%Z <> NewCopy other)
    by discriminate.
  assert (H2 : construct (ctor_of (NewList [1; 2; 3]%Z)) = Ok tt v123)
    by reflexivity.
  split; [exact H1|]. split; [exact H2|].
  exact (constructors_build_well_formed (NewList [1; 2; 3]%Z) v123 H1 H2).
Defined.

(** [Insert] at every position of the full vector [{1, 2, 3}]. *)
Lemma Insert_full_is_undefined_witness :
  size_ v123 = capacity_ v123
  /\ 0 < capacity_ v123
  /\ capacity_ v123 <= max_alloc
  /\ Insert 0 99%Z v123 = UB
  /\ Insert 3 99%Z v123 = UB.
Proof.
  assert (H1 : 0 < capacity_ v123) by reflexivity.
  assert (H2 : capacity_ v123 <= max_alloc) by (vm_compute; discriminate).
  assert (H3 : 0 <= size_ v123) by (vm_compute; discriminate).
  assert (H4 : 3 <= size_ v123) by (vm_compute; discriminate).
  split; [reflexivity|]. split; [exact H1|]. split; [exact H2|]. split.
  - exact (Insert_full_is_undefined 0 99%Z v123 eq_refl H1 H2 H3).
  - exact (Insert_full_is_undefined 3 99%Z v123 eq_refl H1 H2 H4).
Defined.

(** [Resize(1)] on [{1, 2, 3, 4}]. *)
Lemma Resize_shrink_overwrites_witness :
  0 < 1
  /\ 1 <= size_ v1234
  /\ Resize 1 v1234 = Ok tt (mkSimpleVector [1; 0; 3; 4]%Z 1 4).
Proof.
  assert (H1 : 0 < 1) by reflexivity.
  assert (H2 : 1 <= size_ v1234) by (vm_compute; discriminate).
  assert (H3 : size_ v1234 <= capacity_ v1234)
    by (vm_compute; discriminate).
  assert (H4 : 1 + 1 <= N.of_nat (length (simple_vector_ v1234)))
    by (vm_compute; discriminate).
  split; [exact H1|]. split; [exact H2|].
  exact (Resize_shrink_overwrites 1 v1234 H1 H2 H3 H4).
Defined.

(** [Resize(5)] on a vector of length 0 and capacity 10. *)
Lemma Resize_within_capacity_keeps_size_witness :
  size_ reserved10 < 5
  /\ 5 <= capacity_ reserved10
  /\ Resize 5 reserved10 = Ok tt reserved10
  /\ size_ reserved10 = size_ reserved10
  /\ size_ reserved10 <> 5.
Proof.
  assert (H1 : size_ reserved10 < 5) by reflexivity.
  assert (H2 : 5 <= capacity_ reserved10) by (vm_compute; discriminate).
  assert (H3 : Resize 5 reserved10 = Ok tt reserved10) by reflexivity.
  split; [exact H1|]. split; [exact H2|]. split; [exact H3|].
  exact (Resize_within_capacity_keeps_size 5 reserved10 reserved10 H1 H2 H3).
Defined.

End IntVectorMore.
